(** * The external scanner of the Parsley tree-sitter grammar

    A shallow embedding of [contrib/tree-sitter-parsley/src/scanner.c]:
    the one-byte scanner state with its (de)serialisation, the raw-text
    scanner [scan_raw_text] and the entry point
    [tree_sitter_parsley_external_scanner_scan], followed by the properties
    the specification states about them. *)

From Stdlib Require Import ZArith List Ascii String Bool Arith Lia.
Import ListNotations.

Local Open Scope list_scope.
Local Open Scope Z_scope.

(** ** Characters *)

(** Code points are [int32_t] values; a C character literal is its code. *)
Definition chr (a : ascii) : Z := Z.of_N (N_of_ascii a).

(** The code points of a string literal, used to write inputs down. *)
Definition codes (s : string) : list Z := map chr (list_ascii_of_string s).

(** ** Token kinds and scanner state *)

(** [enum TokenType], in the order of the grammar's externals. *)
Inductive TokenType : Type :=
| RAW_TEXT
| RAW_TEXT_INTERPOLATION_START
| ERROR_SENTINEL.

(** [struct Scanner]: one [uint8_t] field. *)
Record Scanner : Type := mkScanner { raw_text_mode : Z }.

(** Every value a [uint8_t] field can hold. *)
Definition uint8_range (s : Scanner) : Prop := 0 <= raw_text_mode s < 256.

(** Conversion of an integer to [char] (signed, eight bits, wrapping) and to
    [uint8_t]. *)
Definition to_char (z : Z) : Z := (z + 128) mod 256 - 128.
Definition to_uint8 (z : Z) : Z := z mod 256.

(** [tree_sitter_parsley_external_scanner_create]: [calloc] zeroes the
    field. *)
Definition tree_sitter_parsley_external_scanner_create : Scanner :=
  mkScanner 0.

Abbreviation create := tree_sitter_parsley_external_scanner_create.

(** ** Serialisation *)

(** [buffer[0] = v]; the host hands over a buffer of
    [TREE_SITTER_SERIALIZATION_BUFFER_SIZE] chars, so the slot exists.  On an
    empty buffer the C store would be out of bounds; the model leaves the
    buffer alone there. *)
Definition store0 (v : Z) (buffer : list Z) : list Z :=
  match buffer with
  | [] => []
  | _ :: tl => v :: tl
  end.

(** [tree_sitter_parsley_external_scanner_serialize]: returns the number of
    chars written together with the buffer after the write. *)
Definition tree_sitter_parsley_external_scanner_serialize
  (scanner : Scanner) (buffer : list Z) : nat * list Z :=
  (1%nat, store0 (to_char (raw_text_mode scanner)) buffer).

Abbreviation serialize := tree_sitter_parsley_external_scanner_serialize.

(** [tree_sitter_parsley_external_scanner_deserialize]: the payload is
    overwritten, whatever it held. *)
Definition tree_sitter_parsley_external_scanner_deserialize
  (scanner : Scanner) (buffer : list Z) (length : nat) : Scanner :=
  if (1 <=? length)%nat
  then mkScanner (to_uint8 (nth 0 buffer 0))
  else mkScanner 0.

Abbreviation deserialize := tree_sitter_parsley_external_scanner_deserialize.

(** ** The lexer interface *)

(** Modelled from the spec: the [TSLexer] of [tree_sitter/parser.h], which is
    not part of the sources.  The specification lists what the scanner
    consumes of it: peek the current code point without consuming, advance
    one code point, mark the current position as the end boundary of the
    token (may be called several times, the last call wins), and query
    end of input.  The unread input is a list of code points whose head is
    the lookahead; [position] counts the code points consumed so far;
    [marks] records every [mark_end] call, latest first; [result_symbol] is
    unset until the scanner writes it. *)
Record TSLexer : Type := mkLexer {
  unread : list Z;
  position : nat;
  marks : list nat;
  result_symbol : option TokenType
}.

(** [lexer->lookahead]; past the end of the input it reads as 0. *)
Definition lookahead (lx : TSLexer) : Z := hd 0 (unread lx).

(** [lexer->eof(lexer)]. *)
Definition eof (lx : TSLexer) : bool :=
  match unread lx with [] => true | _ :: _ => false end.

(** [lexer->advance(lexer, false)], the helper [advance] of the source.
    At the end of the input there is nothing left to advance over; the
    scanner calls it only behind the [eof] test or behind a test of the
    lookahead against a non-zero character, so never there. *)
Definition advance (lx : TSLexer) : TSLexer :=
  match unread lx with
  | [] => lx
  | _ :: tl => mkLexer tl (S (position lx)) (marks lx) (result_symbol lx)
  end.

(** The case folding of lines 81-82: [if (c >= 'A' && c <= 'Z') c = c +
    ('a' - 'A')].  Upper-case ASCII letters go to lower case, every other
    code point is left alone. *)
Definition fold_ascii (c : Z) : Z :=
  if (chr "A" <=? c) && (c <=? chr "Z") then c + (chr "a" - chr "A") else c.

(** The helper [lookahead_matches_string] (lines 75-90), which [advance]s
    over the characters it has matched.  [str] is the char array: the loop
    ends at its first NUL, and a list without NUL stands for the array that
    has its terminating NUL right after it.  [scan_raw_text] does not call
    the helper: it spells the comparisons out, see [close_tag_name] below. *)
Fixpoint lookahead_matches_string (lx : TSLexer) (str : list Z)
  : bool * TSLexer :=
  match str with
  | [] => (true, lx)
  | expected :: str =>
    if expected =? 0 then (true, lx)
    else if fold_ascii (lookahead lx) =? fold_ascii expected
    then lookahead_matches_string (advance lx) str
    else (false, lx)
  end.

(** [lexer->mark_end(lexer)]. *)
Definition mark_end (lx : TSLexer) : TSLexer :=
  mkLexer (unread lx) (position lx) (position lx :: marks lx)
          (result_symbol lx).

(** [lexer->result_symbol = k]. *)
Definition set_result (k : TokenType) (lx : TSLexer) : TSLexer :=
  mkLexer (unread lx) (position lx) (marks lx) (Some k).

(** The end of the token as the host reads it: the last marked position, or
    the current position when nothing was marked. *)
Definition token_end (lx : TSLexer) : nat :=
  match marks lx with
  | m :: _ => m
  | [] => position lx
  end.

(** A lexer at the start of a scan over [input], at position [start]. *)
Definition lexer_at (start : nat) (input : list Z) : TSLexer :=
  mkLexer input start [] None.

(** ** Closing-tag names (scanner.c, lines 163-295) *)

(** The test that ends a tag name: [>], space, tab, line feed or carriage
    return. *)
Definition tag_name_end (lx : TSLexer) : bool :=
  (lookahead lx =? chr ">") || (lookahead lx =? chr " ") ||
  (lookahead lx =? chr "009") || (lookahead lx =? chr "010") ||
  (lookahead lx =? chr "013").

(** [lexer->lookahead == a || lexer->lookahead == b]. *)
Definition either (a b : ascii) (lx : TSLexer) : bool :=
  (lookahead lx =? chr a) || (lookahead lx =? chr b).

(** The matchers return [true] where the source reaches its
    "Found </...>!" block, and [false] where control falls out of the nested
    tests; the lexer is the one left behind by the calls to [advance].
    First, lines 187-208 and 242-265: the lookahead is [t] or [T]. *)
Definition style_tail (lx : TSLexer) : bool * TSLexer :=
  let lx := advance lx in
  if either "y" "Y" lx then
    let lx := advance lx in
    if either "l" "L" lx then
      let lx := advance lx in
      if either "e" "E" lx then
        let lx := advance lx in
        (tag_name_end lx, lx)
      else (false, lx)
    else (false, lx)
  else (false, lx).

(** Lines 210-235 and 267-294: the lookahead is [c] or [C]. *)
Definition script_tail (lx : TSLexer) : bool * TSLexer :=
  let lx := advance lx in
  if either "r" "R" lx then
    let lx := advance lx in
    if either "i" "I" lx then
      let lx := advance lx in
      if either "p" "P" lx then
        let lx := advance lx in
        if either "t" "T" lx then
          let lx := advance lx in
          (tag_name_end lx, lx)
        else (false, lx)
      else (false, lx)
    else (false, lx)
  else (false, lx).

(** Lines 186-235 and 241-294: [if (t or T) ... else if (c or C) ...]. *)
Definition style_or_script (lx : TSLexer) : bool * TSLexer :=
  if either "t" "T" lx then style_tail lx
  else if either "c" "C" lx then script_tail lx
  else (false, lx).

(** Lines 164-183: the lookahead is [S]; [Q], [L] and the end test. *)
Definition sql_tail (lx : TSLexer) : bool * TSLexer :=
  let lx := advance lx in
  if lookahead lx =? chr "Q" then
    let lx := advance lx in
    if lookahead lx =? chr "L" then
      let lx := advance lx in
      (tag_name_end lx, lx)
    else (false, lx)
  else (false, lx).

(** Lines 163-295, entered with ["</"] consumed. *)
Definition close_tag_name (lx : TSLexer) : bool * TSLexer :=
  if lookahead lx =? chr "S" then
    let '(found, lx) := sql_tail lx in
    if found then (true, lx) else style_or_script lx
  else if lookahead lx =? chr "s" then
    style_or_script (advance lx)
  else (false, lx).

(** ** The raw-text scanner *)

(** The code after the loop (lines 316-322). *)
Definition at_eof (has_content : bool) (lx : TSLexer) : bool * TSLexer :=
  if has_content then (true, set_result RAW_TEXT lx) else (false, lx).

(** How one pass through the body of the [while (true)] loop ends: with a
    [return] or the [break] at end of input (the value the function then
    returns, and the lexer), or with a [continue]. *)
Inductive Flow : Type :=
| Return (r : bool * TSLexer)
| Continue (lx : TSLexer).

(** The body of the loop (lines 117-313).  Every path that goes round again
    sets [has_content], so [Continue] need not carry it. *)
Definition loop_body (has_content : bool) (lx : TSLexer) : Flow :=
  if eof lx then Return (at_eof has_content lx)
  else
    let c := lookahead lx in
    if c =? chr "@" then
      let lx := mark_end lx in
      let lx := advance lx in
      if lookahead lx =? chr "{" then
        if has_content then Return (true, set_result RAW_TEXT lx)
        else
          let lx := advance lx in
          let lx := mark_end lx in
          Return (true, set_result RAW_TEXT_INTERPOLATION_START lx)
      else Continue (mark_end lx)
    else if c =? chr "<" then
      let lx := mark_end lx in
      let lx := advance lx in
      if lookahead lx =? chr "/" then
        let lx := advance lx in
        let '(found, lx) := close_tag_name lx in
        if found then
          if has_content then Return (true, set_result RAW_TEXT lx)
          else Return (false, lx)
        else Continue (mark_end lx)
      else Continue (mark_end lx)
    else
      let lx := advance lx in
      Continue (mark_end lx).

(** The loop itself.  Every pass that does not return consumes input, so the
    loop is run on a budget of passes; [None] stands for an exhausted
    budget, which [scan_loop_total] shows never happens with the budget
    [scan_raw_text] gives. *)
Fixpoint scan_loop (budget : nat) (has_content : bool) (lx : TSLexer)
  : option (bool * TSLexer) :=
  match budget with
  | O => None
  | S budget =>
    match loop_body has_content lx with
    | Return r => Some r
    | Continue lx => scan_loop budget true lx
    end
  end.

(** What a scan call leaves behind: the returned [bool], the payload and the
    lexer. *)
Record Outcome : Type := mkOutcome {
  handled : bool;
  payload : Scanner;
  lexer : TSLexer
}.

(** [valid_symbols], indexed by token kind. *)
Definition ValidSymbols : Type := TokenType -> bool.

(** [scan_raw_text]: neither [scanner] nor [valid_symbols] is read. *)
Definition scan_raw_text (scanner : Scanner) (lx : TSLexer)
  (valid_symbols : ValidSymbols) : option Outcome :=
  match scan_loop (S (List.length (unread lx))) false lx with
  | Some (b, lx') => Some (mkOutcome b scanner lx')
  | None => None
  end.

(** [tree_sitter_parsley_external_scanner_scan]. *)
Definition tree_sitter_parsley_external_scanner_scan (scanner : Scanner)
  (lx : TSLexer) (valid_symbols : ValidSymbols) : option Outcome :=
  if valid_symbols RAW_TEXT || valid_symbols RAW_TEXT_INTERPOLATION_START
  then scan_raw_text scanner lx valid_symbols
  else Some (mkOutcome false scanner lx).

Abbreviation scan := tree_sitter_parsley_external_scanner_scan.

(** ** Reading an outcome *)

(** The call produced a token of kind [k] ending at position [e]. *)
Definition emits (o : option Outcome) (k : TokenType) (e : nat) : Prop :=
  exists out, o = Some out /\ handled out = true /\
    result_symbol (lexer out) = Some k /\ token_end (lexer out) = e.

(** The call returned "not handled". *)
Definition declines (o : option Outcome) : Prop :=
  exists out, o = Some out /\ handled out = false.

(** Inside a raw-text region the grammar accepts one of the two kinds. *)
Definition in_region (valid_symbols : ValidSymbols) : Prop :=
  valid_symbols RAW_TEXT || valid_symbols RAW_TEXT_INTERPOLATION_START = true.

Definition all_valid : ValidSymbols := fun _ => true.
Definition none_valid : ValidSymbols := fun _ => false.

(** Scanning [input] from position 0 with a fresh lexer. *)
Definition scan_input (scanner : Scanner) (valid_symbols : ValidSymbols)
  (input : list Z) : option Outcome :=
  scan scanner (lexer_at 0 input)
    valid_symbols.

(** ** Names and terminators in the words of the specification *)

Definition ascii_letter (c : Z) : bool :=
  ((chr "A" <=? c) && (c <=? chr "Z")) || ((chr "a" <=? c) && (c <=? chr "z")).

Fixpoint codes_eqb (a b : list Z) : bool :=
  match a, b with
  | [], [] => true
  | x :: a, y :: b => (x =? y) && codes_eqb a b
  | _, _ => false
  end.

(** The three closing-tag names: [style] and [script] in any mix of ASCII
    cases, [SQL] in upper case only. *)
Definition recognized_name (n : list Z) : bool :=
  codes_eqb (map fold_ascii n) (codes "style") ||
  codes_eqb (map fold_ascii n) (codes "script") ||
  codes_eqb n (codes "SQL").

(** The characters the source accepts after a tag name. *)
Definition terminator (c : Z) : bool :=
  (c =? chr ">") || (c =? chr " ") || (c =? chr "009") ||
  (c =? chr "010") || (c =? chr "013").

(** The names [close_tag_name] accepts beyond the three recognized ones:
    once [Q], or [Q] and [L], have been consumed after [S] and the [SQL]
    test fails, lines 186 and 209 go on to test for [tyle] and [cript]. *)
Definition tail_name (q : list Z) : bool :=
  codes_eqb (map fold_ascii q) (codes "tyle") ||
  codes_eqb (map fold_ascii q) (codes "cript").

Definition fallthrough_name (p : list Z) : bool :=
  match p with
  | a :: b :: q =>
    (a =? chr "S") && (b =? chr "Q") &&
    (tail_name q ||
     match q with
     | c :: q' => (c =? chr "L") && tail_name q'
     | [] => false
     end)
  | _ => false
  end.

(** Everything [close_tag_name] accepts. *)
Definition accepted_name (p : list Z) : bool :=
  recognized_name p || fallthrough_name p.

(** [l] begins with the interpolation trigger. *)
Definition trigger_at (l : list Z) : bool :=
  match l with
  | a :: b :: _ => (a =? chr "@") && (b =? chr "{")
  | _ => false
  end.

(** [l] begins with a closing tag the scanner accepts: ["</"] and a name for
    which [close_tag_name] answers [true]. *)
Definition close_tag_at (l : list Z) : bool :=
  match l with
  | a :: b :: l' =>
    (a =? chr "<") && (b =? chr "/") &&
    fst (close_tag_name (mkLexer l' 0 [] None))
  | _ => false
  end.

(** The scanner passes over the whole of [content] when [content] is
    followed by [follow]: no position inside [content] begins the trigger or
    an accepted closing tag. *)
Fixpoint accumulates (content follow : list Z) : bool :=
  match content with
  | [] => true
  | _ :: tl =>
    negb (trigger_at (content ++ follow)) &&
    negb (close_tag_at (content ++ follow)) &&
    accumulates tl follow
  end.

(** What follows the content starts a new decision of the loop: the input
    ends, or the next code point is [@] or [<]. *)
Definition boundary (follow : list Z) : bool :=
  match follow with
  | [] => true
  | c :: _ => (c =? chr "@") || (c =? chr "<")
  end.

(** Code points other than [@] and [<]: the ones that cannot start a new
    decision of the loop. *)
Definition inner (c : Z) : bool := negb ((c =? chr "@") || (c =? chr "<")).

(** Where the loop stops: at the end of the input, at the trigger, or at
    an accepted closing tag. *)
Definition stop_at (l : list Z) : bool :=
  match l with
  | [] => true
  | _ :: _ => trigger_at l || close_tag_at l
  end.

(** ** Content described without reference to the scanner *)

(** Some position of [l] satisfies [f]. *)
Fixpoint occurs (f : list Z -> bool) (l : list Z) : bool :=
  match l with
  | [] => false
  | _ :: tl => f l || occurs f tl
  end.

Fixpoint starts_with (pre l : list Z) : bool :=
  match pre, l with
  | [], _ => true
  | x :: pre, y :: l => (x =? y) && starts_with pre l
  | _ :: _, [] => false
  end.

(** The first [k] code points of [l] are a recognized name and the next one
    is a terminator. *)
Definition name_ends_at (k : nat) (l : list Z) : bool :=
  recognized_name (firstn k l) && terminator (nth k l 0).

(** [l] begins with a correctly terminated recognized closing tag: ["</"],
    one of the three names (of length 3, 5 or 6), a terminator. *)
Definition recognized_close_at (l : list Z) : bool :=
  match l with
  | a :: b :: l' =>
    (a =? chr "<") && (b =? chr "/") &&
    (name_ends_at 3 l' || name_ends_at 5 l' || name_ends_at 6 l')
  | _ => false
  end.

(** Content with no interpolation trigger, no correctly terminated
    recognized closing tag and no ["</SQ"] in it. *)
Definition plain_content (content : list Z) : bool :=
  negb (occurs trigger_at content) &&
  negb (occurs recognized_close_at content) &&
  negb (occurs (starts_with (codes "</SQ")) content).

(** ** Notions used in the proofs *)

(** [lx'] is [lx] after consuming exactly the code points [p]. *)
Definition consumed (lx lx' : TSLexer) (p : list Z) : Prop :=
  unread lx = p ++ unread lx' /\
  position lx' = (position lx + List.length p)%nat /\
  marks lx' = marks lx /\
  result_symbol lx' = result_symbol lx.

(** The shape every name matcher has: what it consumed are ASCII letters,
    and on success the letters fold to [name] and the lookahead ends a tag
    name. *)
Definition matcher_result (name : string) (lx : TSLexer)
  (r : bool * TSLexer) : Prop :=
  exists p, consumed lx (snd r) p /\ forallb ascii_letter p = true /\
    (fst r = true ->
     tag_name_end (snd r) = true /\ map fold_ascii p = codes name).

(** The loop, started in [lx], returns [r] on some budget. *)
Definition runs (hc : bool) (lx : TSLexer) (r : bool * TSLexer) : Prop :=
  exists budget, scan_loop budget hc lx = Some r.

(** The four ways a pass through the loop body can go: end of input, the
    trigger, an accepted closing tag, or content, of which a non-empty part
    [p] is consumed and the position after it marked. *)
Inductive Pass (hc : bool) : TSLexer -> Flow -> Prop :=
| pass_eof pos m s :
    Pass hc (mkLexer [] pos m s) (Return (at_eof hc (mkLexer [] pos m s)))
| pass_trigger r pos m s :
    Pass hc (mkLexer (chr "@" :: chr "{" :: r) pos m s)
      (Return (if hc
               then (true, mkLexer (chr "{" :: r) (S pos) (pos :: m)
                                   (Some RAW_TEXT))
               else (true, mkLexer r (S (S pos)) (S (S pos) :: pos :: m)
                                   (Some RAW_TEXT_INTERPOLATION_START))))
| pass_close p t r pos m s :
    accepted_name p = true -> terminator t = true ->
    Pass hc (mkLexer (chr "<" :: chr "/" :: p ++ t :: r) pos m s)
      (Return (if hc
               then (true, mkLexer (t :: r) (List.length p + S (S pos))
                                   (pos :: m) (Some RAW_TEXT))
               else (false, mkLexer (t :: r) (List.length p + S (S pos))
                                    (pos :: m) s)))
| pass_content p r pos m ms s :
    p <> [] -> ms = m \/ ms = pos :: m ->
    Pass hc (mkLexer (p ++ r) pos m s)
      (Continue (mkLexer r (List.length p + pos)
                         ((List.length p + pos)%nat :: ms) s)).

(** The states the scanner can be in: the one [create] makes, and whatever
    [deserialize] restores; a scan never writes the field. *)
Inductive reachable : Scanner -> Prop :=
| reachable_create : reachable create
| reachable_deserialize sc buffer length :
    reachable (deserialize sc buffer length).

(** ** Notions used for the further properties *)

(** The characters of a C string: the array up to its first NUL. *)
Fixpoint until_nul (str : list Z) : list Z :=
  match str with
  | [] => []
  | c :: str => if c =? 0 then [] else c :: until_nul str
  end.

(** A name test followed by the end-of-name test, as lines 186-208 nest
    them. *)
Definition with_end (r : bool * TSLexer) : bool * TSLexer :=
  (fst r && tag_name_end (snd r), snd r).

(** The number of code points in front of the first position of [input] at
    which the loop stops: the first position that begins the trigger or an
    accepted closing tag, or else the end of the input. *)
Fixpoint first_stop (input : list Z) : nat :=
  match input with
  | [] => 0
  | _ :: tl => if stop_at input then 0 else S (first_stop tl)
  end.

(** ** Lemmas on the lexer and the name matchers *)

Lemma consumed_refl lx : consumed lx lx [].
Proof. repeat split; simpl; lia. Qed.

Lemma consumed_trans lx1 lx2 lx3 p q :
  consumed lx1 lx2 p -> consumed lx2 lx3 q -> consumed lx1 lx3 (p ++ q).
Proof.
  intros (U1 & P1 & M1 & R1) (U2 & P2 & M2 & R2).
  repeat split.
  - rewrite U1, U2, app_assoc. reflexivity.
  - rewrite P2, P1, length_app. lia.
  - congruence.
  - congruence.
Qed.

Lemma advance_consumed lx c :
  lookahead lx = c -> c <> 0 -> consumed lx (advance lx) [c].
Proof.
  destruct lx as [[|x r] p m s]; unfold lookahead, advance; simpl.
  - congruence.
  - intros -> _. repeat split; simpl. lia.
Qed.

Lemma either_inv a b lx :
  either a b lx = true -> chr a <> 0 -> chr b <> 0 ->
  exists c, consumed lx (advance lx) [c] /\ (c = chr a \/ c = chr b).
Proof.
  unfold either. intros H Ha Hb.
  apply orb_true_iff in H. destruct H as [H|H]; apply Z.eqb_eq in H.
  - exists (chr a). split; [apply advance_consumed; assumption | now left].
  - exists (chr b). split; [apply advance_consumed; assumption | now right].
Qed.

(** A code point the name tests accept is an ASCII letter, and folds to the
    lower-case letter of the test. *)
Lemma either_letter a b k lx :
  either a b lx = true ->
  ascii_letter (chr a) = true -> ascii_letter (chr b) = true ->
  fold_ascii (chr a) = k -> fold_ascii (chr b) = k ->
  exists c, consumed lx (advance lx) [c] /\ ascii_letter c = true /\
            fold_ascii c = k.
Proof.
  intros H La Lb Fa Fb.
  assert (Na : chr a <> 0) by (intros E; rewrite E in La; discriminate).
  assert (Nb : chr b <> 0) by (intros E; rewrite E in Lb; discriminate).
  destruct (either_inv a b lx H Na Nb) as (c & Hc & [-> | ->]).
  - exists (chr a); auto.
  - exists (chr b); auto.
Qed.

Ltac letter_step E :=
  match goal with
  | |- context [either ?a ?b ?l] =>
    destruct (either a b l) eqn:E;
    [ let c := fresh "c" in
      let Hc := fresh "Hc" in
      let Lc := fresh "Lc" in
      let Fc := fresh "Fc" in
      let k := eval vm_compute in (fold_ascii (chr a)) in
      destruct (either_letter a b k l E eq_refl eq_refl eq_refl eq_refl)
        as (c & Hc & Lc & Fc)
    | ]
  end.

Ltac close_matcher p :=
  exists p; split;
  [ repeat (eapply consumed_trans; [eassumption|]); apply consumed_refl
  | simpl; split;
    [ repeat match goal with H : ascii_letter _ = true |- _ =>
        rewrite H; clear H end; reflexivity
    | intros Hend; first [ discriminate Hend | split; [exact Hend|];
        repeat match goal with H : fold_ascii _ = _ |- _ =>
          rewrite H; clear H end; reflexivity ] ] ].

Lemma style_tail_result lx :
  either "t" "T" lx = true -> matcher_result "tyle" lx (style_tail lx).
Proof.
  intros E0. unfold matcher_result, style_tail.
  destruct (either_letter _ _ 116 _ E0 eq_refl eq_refl eq_refl eq_refl)
    as (c0 & H0 & L0 & F0).
  letter_step E1; [| close_matcher ([c0] ++ [])].
  letter_step E2; [| close_matcher ([c0] ++ [c] ++ [])].
  letter_step E3; [| close_matcher ([c0] ++ [c] ++ [c1] ++ [])].
  close_matcher ([c0] ++ [c] ++ [c1] ++ [c2] ++ []).
Qed.

Lemma script_tail_result lx :
  either "c" "C" lx = true -> matcher_result "cript" lx (script_tail lx).
Proof.
  intros E0. unfold matcher_result, script_tail.
  destruct (either_letter _ _ 99 _ E0 eq_refl eq_refl eq_refl eq_refl)
    as (c0 & H0 & L0 & F0).
  letter_step E1; [| close_matcher ([c0] ++ [])].
  letter_step E2; [| close_matcher ([c0] ++ [c] ++ [])].
  letter_step E3; [| close_matcher ([c0] ++ [c] ++ [c1] ++ [])].
  letter_step E4; [| close_matcher ([c0] ++ [c] ++ [c1] ++ [c2] ++ [])].
  close_matcher ([c0] ++ [c] ++ [c1] ++ [c2] ++ [c3] ++ []).
Qed.

Lemma style_or_script_result lx :
  exists p, consumed lx (snd (style_or_script lx)) p /\
    forallb ascii_letter p = true /\
    (fst (style_or_script lx) = true ->
     tag_name_end (snd (style_or_script lx)) = true /\
     (map fold_ascii p = codes "tyle" \/ map fold_ascii p = codes "cript")).
Proof.
  unfold style_or_script.
  destruct (either "t" "T" lx) eqn:Et.
  - destruct (style_tail_result lx Et) as (p & C & L & F).
    exists p. intuition.
  - destruct (either "c" "C" lx) eqn:Ec.
    + destruct (script_tail_result lx Ec) as (p & C & L & F).
      exists p. intuition.
    + exists []. simpl. split; [apply consumed_refl|]. split; [reflexivity|].
      discriminate.
Qed.

Lemma sql_tail_result lx :
  lookahead lx = chr "S" ->
  exists p, consumed lx (snd (sql_tail lx)) p /\
    (p = codes "S" \/ p = codes "SQ" \/ p = codes "SQL") /\
    (fst (sql_tail lx) = true ->
     tag_name_end (snd (sql_tail lx)) = true /\ p = codes "SQL").
Proof.
  intros HS. unfold sql_tail.
  pose proof (advance_consumed lx _ HS ltac:(discriminate)) as C0.
  destruct (Z.eqb_spec (lookahead (advance lx)) (chr "Q")) as [HQ|HQ].
  - pose proof (advance_consumed _ _ HQ ltac:(discriminate)) as C1.
    destruct (Z.eqb_spec (lookahead (advance (advance lx))) (chr "L"))
      as [HL|HL].
    + pose proof (advance_consumed _ _ HL ltac:(discriminate)) as C2.
      exists ([chr "S"] ++ [chr "Q"] ++ [chr "L"] ++ []). split.
      * repeat (eapply consumed_trans; [eassumption|]). apply consumed_refl.
      * simpl. split; [auto|]. intros E. split; [exact E | reflexivity].
    + exists ([chr "S"] ++ [chr "Q"] ++ []). split.
      * repeat (eapply consumed_trans; [eassumption|]). apply consumed_refl.
      * simpl. split; [auto|]. discriminate.
  - exists ([chr "S"] ++ []). split.
    + repeat (eapply consumed_trans; [eassumption|]). apply consumed_refl.
    + simpl. split; [auto|]. discriminate.
Qed.

Lemma codes_eqb_eq a b : codes_eqb a b = true <-> a = b.
Proof.
  revert b. induction a as [|x a IH]; destruct b as [|y b]; simpl;
    try (split; [discriminate | congruence]).
  - tauto.
  - rewrite andb_true_iff, Z.eqb_eq, IH. split.
    + intros [-> ->]. reflexivity.
    + intros E. injection E. auto.
Qed.

Lemma codes_eqb_refl a : codes_eqb a a = true.
Proof. apply codes_eqb_eq. reflexivity. Qed.

Lemma tail_name_intro q :
  map fold_ascii q = codes "tyle" \/ map fold_ascii q = codes "cript" ->
  tail_name q = true.
Proof.
  unfold tail_name. intros [-> | ->]; reflexivity.
Qed.

(** What [close_tag_name] consumes are ASCII letters, whatever it answers;
    when it answers [true] the letters are an accepted name and the
    lookahead is one of the five end-of-name characters. *)
Lemma close_tag_name_result lx :
  exists p, consumed lx (snd (close_tag_name lx)) p /\
    forallb ascii_letter p = true /\
    (fst (close_tag_name lx) = true ->
     tag_name_end (snd (close_tag_name lx)) = true /\
     accepted_name p = true).
Proof.
  unfold close_tag_name.
  destruct (Z.eqb_spec (lookahead lx) (chr "S")) as [HS|HS].
  - destruct (sql_tail_result lx HS) as (p1 & C1 & Hp1 & F1).
    destruct (sql_tail lx) as [found lx1]. simpl in *.
    destruct found.
    + exists p1. split; [exact C1|]. destruct (F1 eq_refl) as [E ->].
      simpl. split; [reflexivity|]. intros _. split; [exact E | reflexivity].
    + destruct (style_or_script_result lx1) as (p2 & C2 & L2 & F2).
      exists (p1 ++ p2). split; [eapply consumed_trans; eassumption|].
      split.
      * rewrite forallb_app, L2.
        destruct Hp1 as [-> | [-> | ->]]; reflexivity.
      * intros E. destruct (F2 E) as [T N]. split; [exact T|].
        pose proof (tail_name_intro p2 N) as TN.
        unfold accepted_name.
        destruct Hp1 as [-> | [-> | ->]].
        -- apply orb_true_iff. left. unfold recognized_name.
           change (map fold_ascii (codes "S" ++ p2))
             with (chr "s" :: map fold_ascii p2).
           destruct N as [-> | ->]; reflexivity.
        -- apply orb_true_iff. right.
           change (codes "SQ" ++ p2) with (chr "S" :: chr "Q" :: p2).
           unfold fallthrough_name. rewrite TN. reflexivity.
        -- apply orb_true_iff. right.
           change (codes "SQL" ++ p2)
             with (chr "S" :: chr "Q" :: chr "L" :: p2).
           unfold fallthrough_name. rewrite TN.
           rewrite orb_true_r. reflexivity.
  - destruct (Z.eqb_spec (lookahead lx) (chr "s")) as [Hs|Hs].
    + pose proof (advance_consumed lx _ Hs ltac:(discriminate)) as C0.
      destruct (style_or_script_result (advance lx)) as (p2 & C2 & L2 & F2).
      exists ([chr "s"] ++ p2). split; [eapply consumed_trans; eassumption|].
      split; [exact L2|].
      intros E. destruct (F2 E) as [T N]. split; [exact T|].
      unfold accepted_name, recognized_name.
      change (map fold_ascii ([chr "s"] ++ p2))
        with (chr "s" :: map fold_ascii p2).
      destruct N as [-> | ->]; reflexivity.
    + exists []. split; [apply consumed_refl|]. split; [reflexivity|].
      discriminate.
Qed.

Lemma fold_ascii_inv c k : fold_ascii c = k -> c = k \/ c = k - 32.
Proof.
  unfold fold_ascii. change (chr "a" - chr "A") with 32.
  destruct (_ && _); intros <-; [right | left]; lia.
Qed.

Lemma map_fold_cons p k ks :
  map fold_ascii p = k :: ks ->
  exists c q, p = c :: q /\ (c = k \/ c = k - 32) /\ map fold_ascii q = ks.
Proof.
  destruct p as [|c q]; simpl; [discriminate|].
  intros E. injection E as E1 E2. exists c, q.
  auto using fold_ascii_inv.
Qed.

Lemma tag_name_end_terminator lx :
  tag_name_end lx = terminator (lookahead lx).
Proof. reflexivity. Qed.

(** Unfolds a hypothesis [map fold_ascii p = k1 :: ... :: kn :: []] into
    the [2^n] spellings of [p]. *)
Ltac spell H :=
  lazymatch type of H with
  | map fold_ascii ?p = _ :: _ =>
    let c := fresh "c" in
    let q := fresh "q" in
    let Hc := fresh "Hc" in
    let Hq := fresh "Hq" in
    apply map_fold_cons in H;
    destruct H as (c & q & -> & Hc & Hq);
    destruct Hc as [-> | ->]; spell Hq
  | map fold_ascii ?p = [] =>
    apply map_eq_nil in H; subst p
  end.

Lemma terminator_inv t :
  terminator t = true ->
  t = chr ">" \/ t = chr " " \/ t = chr "009" \/ t = chr "010" \/
  t = chr "013".
Proof.
  unfold terminator. rewrite !orb_true_iff, !Z.eqb_eq. tauto.
Qed.

Ltac run_matcher Ht :=
  first
  [ cbn -[tag_name_end]; rewrite tag_name_end_terminator;
    unfold lookahead; simpl hd; rewrite Ht; reflexivity
  | match type of Ht with terminator ?t = true =>
      destruct (terminator_inv t Ht) as [-> | [-> | [-> | [-> | ->]]]];
      vm_compute; reflexivity
    end ].

(** Conversely, an accepted name followed by an end-of-name character is
    matched, and exactly the name is consumed. *)
Lemma close_tag_name_accepts p t r pos m s :
  accepted_name p = true -> terminator t = true ->
  close_tag_name (mkLexer (p ++ t :: r) pos m s) =
  (true, mkLexer (t :: r) (List.length p + pos) m s).
Proof.
  intros Hp Ht. unfold accepted_name, recognized_name in Hp.
  repeat (apply orb_true_iff in Hp; destruct Hp as [Hp|Hp]).
  - apply codes_eqb_eq in Hp.
    change (codes "style") with [115;116;121;108;101] in Hp.
    spell Hp; run_matcher Ht.
  - apply codes_eqb_eq in Hp.
    change (codes "script") with [115;99;114;105;112;116] in Hp.
    spell Hp; run_matcher Ht.
  - apply codes_eqb_eq in Hp. change (codes "SQL") with [83;81;76] in Hp.
    subst p. run_matcher Ht.
  - destruct p as [|a [|b q]]; simpl in Hp; try discriminate.
    apply andb_true_iff in Hp. destruct Hp as [Hab Hq].
    apply andb_true_iff in Hab. destruct Hab as [Ha Hb].
    apply Z.eqb_eq in Ha, Hb. subst a b.
    assert (Hq' : tail_name q = true \/
                  exists q', q = chr "L" :: q' /\ tail_name q' = true).
    { apply orb_true_iff in Hq. destruct Hq as [Hq|Hq]; [now left|].
      right. destruct q as [|c q']; [discriminate|].
      apply andb_true_iff in Hq. destruct Hq as [Hc Hq].
      apply Z.eqb_eq in Hc. subst c. eauto. }
    clear Hq. destruct Hq' as [Hq | (q' & -> & Hq)];
      unfold tail_name in Hq; apply orb_true_iff in Hq;
      destruct Hq as [Hq|Hq]; apply codes_eqb_eq in Hq.
    + change (codes "tyle") with [116;121;108;101] in Hq.
      spell Hq; run_matcher Ht.
    + change (codes "cript") with [99;114;105;112;116] in Hq.
      spell Hq; run_matcher Ht.
    + change (codes "tyle") with [116;121;108;101] in Hq.
      spell Hq; run_matcher Ht.
    + change (codes "cript") with [99;114;105;112;116] in Hq.
      spell Hq; run_matcher Ht.
Qed.

(** ** One pass through the loop body, by the shape of the input *)

Lemma body_eof hc pos m s :
  loop_body hc (mkLexer [] pos m s) = Return (at_eof hc (mkLexer [] pos m s)).
Proof. reflexivity. Qed.

Lemma body_trigger hc r pos m s :
  loop_body hc (mkLexer (chr "@" :: chr "{" :: r) pos m s) =
  Return (if hc
          then (true, mkLexer (chr "{" :: r) (S pos) (pos :: m)
                              (Some RAW_TEXT))
          else (true, mkLexer r (S (S pos)) (S (S pos) :: pos :: m)
                              (Some RAW_TEXT_INTERPOLATION_START))).
Proof. destruct hc; reflexivity. Qed.

Lemma body_at hc r pos m s :
  trigger_at (chr "@" :: r) = false ->
  loop_body hc (mkLexer (chr "@" :: r) pos m s) =
  Continue (mkLexer r (S pos) (S pos :: pos :: m) s).
Proof.
  intros H. unfold loop_body. simpl.
  destruct r as [|b r]; simpl in *; [reflexivity|].
  unfold lookahead. simpl. rewrite H. reflexivity.
Qed.

Lemma body_lt hc r pos m s :
  hd 0 r <> chr "/" ->
  loop_body hc (mkLexer (chr "<" :: r) pos m s) =
  Continue (mkLexer r (S pos) (S pos :: pos :: m) s).
Proof.
  intros H. unfold loop_body. simpl.
  unfold lookahead. simpl.
  destruct (Z.eqb_spec (hd 0 r) (chr "/")) as [E|E]; [contradiction|].
  reflexivity.
Qed.

Lemma body_close hc r pos m s :
  loop_body hc (mkLexer (chr "<" :: chr "/" :: r) pos m s) =
  let '(found, lx) := close_tag_name (mkLexer r (S (S pos)) (pos :: m) s) in
  if found then
    if hc then Return (true, set_result RAW_TEXT lx) else Return (false, lx)
  else Continue (mark_end lx).
Proof. reflexivity. Qed.

Lemma body_other hc c r pos m s :
  c <> chr "@" -> c <> chr "<" ->
  loop_body hc (mkLexer (c :: r) pos m s) =
  Continue (mkLexer r (S pos) (S pos :: m) s).
Proof.
  intros H1 H2. unfold loop_body. simpl. unfold lookahead. simpl.
  destruct (Z.eqb_spec c (chr "@")); [contradiction|].
  destruct (Z.eqb_spec c (chr "<")); [contradiction|].
  reflexivity.
Qed.

Lemma consumed_length lx lx' p :
  consumed lx lx' p ->
  List.length (unread lx) = (List.length p + List.length (unread lx'))%nat.
Proof. intros (U & _). rewrite U, length_app. reflexivity. Qed.

(** A pass that goes round again has consumed input. *)
Lemma body_continue_shorter hc lx lx' :
  loop_body hc lx = Continue lx' ->
  (List.length (unread lx') < List.length (unread lx))%nat.
Proof.
  destruct lx as [[|c r] pos m s]; [discriminate|].
  destruct (Z.eq_dec c (chr "@")) as [->|Hat].
  - destruct (trigger_at (chr "@" :: r)) eqn:T.
    + destruct r as [|b r]; [discriminate|]. simpl in T.
      apply Z.eqb_eq in T. subst b. rewrite body_trigger.
      destruct hc; discriminate.
    + rewrite body_at by exact T. intros E. injection E as <-. simpl. lia.
  - destruct (Z.eq_dec c (chr "<")) as [->|Hlt].
    + destruct (Z.eq_dec (hd 0 r) (chr "/")) as [Hs|Hs].
      * destruct r as [|b r]; [discriminate|]. simpl in Hs. subst b.
        rewrite body_close.
        destruct (close_tag_name_result (mkLexer r (S (S pos)) (pos :: m) s))
          as (p & C & _).
        destruct (close_tag_name _) as [found lx1]. simpl in C.
        apply consumed_length in C. simpl in C.
        destruct found; [destruct hc; discriminate|].
        intros E. injection E as <-. simpl. lia.
      * rewrite body_lt by exact Hs. intros E. injection E as <-. simpl. lia.
    + rewrite body_other by assumption.
      intros E. injection E as <-. simpl. lia.
Qed.

(** ** The loop returns *)

Lemma scan_loop_mono budget hc lx r :
  scan_loop budget hc lx = Some r ->
  forall budget', (budget <= budget')%nat -> scan_loop budget' hc lx = Some r.
Proof.
  revert hc lx. induction budget as [|n IH]; intros hc lx H b' Hle;
    [discriminate|].
  destruct b' as [|n']; [lia|]. simpl in *.
  destruct (loop_body hc lx); [exact H|].
  apply IH; [exact H | lia].
Qed.

(** With more passes in the budget than code points left, the loop returns. *)
Lemma scan_loop_total budget hc lx :
  (List.length (unread lx) < budget)%nat ->
  exists r, scan_loop budget hc lx = Some r.
Proof.
  revert hc lx. induction budget as [|n IH]; intros hc lx H; [lia|].
  simpl. destruct (loop_body hc lx) as [r|lx'] eqn:B; [eauto|].
  apply IH. apply body_continue_shorter in B. lia.
Qed.

Lemma runs_return hc lx r : loop_body hc lx = Return r -> runs hc lx r.
Proof. intros H. exists 1%nat. simpl. rewrite H. reflexivity. Qed.

Lemma runs_continue hc lx lx' r :
  loop_body hc lx = Continue lx' -> runs true lx' r -> runs hc lx r.
Proof.
  intros H [n Hn]. exists (S n). simpl. rewrite H. exact Hn.
Qed.

Lemma runs_budget hc lx r :
  runs hc lx r ->
  scan_loop (S (List.length (unread lx))) hc lx = Some r.
Proof.
  intros [n Hn].
  destruct (scan_loop_total (S (List.length (unread lx))) hc lx) as [r' Hr'];
    [lia|].
  pose proof (scan_loop_mono _ _ _ _ Hn (max n (S (List.length (unread lx))))
                ltac:(lia)) as E1.
  pose proof (scan_loop_mono _ _ _ _ Hr' (max n (S (List.length (unread lx))))
                ltac:(lia)) as E2.
  congruence.
Qed.

Lemma runs_total hc lx : exists r, runs hc lx r.
Proof.
  destruct (scan_loop_total (S (List.length (unread lx))) hc lx) as [r Hr];
    [lia|].
  exists r, (S (List.length (unread lx))). exact Hr.
Qed.

Lemma runs_scan_raw_text sc lx v b lx' :
  runs false lx (b, lx') ->
  scan_raw_text sc lx v = Some (mkOutcome b sc lx').
Proof.
  intros H. unfold scan_raw_text. rewrite (runs_budget _ _ _ H). reflexivity.
Qed.

(** ** The answer of the name matcher depends on the input alone *)

Lemma terminator_hd l :
  terminator (hd 0 l) = true -> exists t r, l = t :: r /\ terminator t = true.
Proof.
  destruct l as [|t r]; simpl; [discriminate|]. eauto.
Qed.

Lemma close_tag_name_true_inv lx :
  fst (close_tag_name lx) = true ->
  exists p t r, unread lx = p ++ t :: r /\
    accepted_name p = true /\ terminator t = true.
Proof.
  intros H. destruct (close_tag_name_result lx) as (p & C & _ & F).
  destruct (F H) as [T A]. rewrite tag_name_end_terminator in T.
  destruct (terminator_hd _ T) as (t & r & U & Ht).
  exists p, t, r. destruct C as (U0 & _). rewrite U0, U. auto.
Qed.

Lemma close_tag_name_answer lx1 lx2 :
  unread lx1 = unread lx2 ->
  fst (close_tag_name lx1) = fst (close_tag_name lx2).
Proof.
  assert (half : forall a b, unread a = unread b ->
            fst (close_tag_name a) = true -> fst (close_tag_name b) = true).
  { intros a b U H.
    destruct (close_tag_name_true_inv a H) as (p & t & r & Ua & A & T).
    destruct b as [ub pb mb sb]. simpl in U. rewrite <- U, Ua.
    rewrite close_tag_name_accepts by assumption. reflexivity. }
  intros U.
  destruct (fst (close_tag_name lx1)) eqn:E1.
  - symmetry. apply (half lx1 lx2 U E1).
  - destruct (fst (close_tag_name lx2)) eqn:E2; [|reflexivity].
    rewrite (half lx2 lx1 (eq_sym U) E2) in E1. discriminate.
Qed.

(** [close_tag_at] characterised: ["</"], an accepted name, an end-of-name
    character. *)
Lemma close_tag_at_iff l :
  close_tag_at l = true <->
  exists p t r, l = chr "<" :: chr "/" :: p ++ t :: r /\
    accepted_name p = true /\ terminator t = true.
Proof.
  split.
  - destruct l as [|a [|b l']]; simpl; try discriminate.
    rewrite !andb_true_iff, !Z.eqb_eq. intros [[-> ->] H].
    destruct (close_tag_name_true_inv _ H) as (p & t & r & U & A & T).
    simpl in U. subst l'. eauto 6.
  - intros (p & t & r & -> & A & T). simpl.
    rewrite close_tag_name_accepts by assumption. reflexivity.
Qed.

(** ** Passing over content *)

Lemma accumulates_suffix a b follow :
  accumulates (a ++ b) follow = true -> accumulates b follow = true.
Proof.
  induction a as [|x a IH]; simpl; [auto|].
  rewrite !andb_true_iff. intros [_ H]. auto.
Qed.

Lemma letter_inner c : ascii_letter c = true -> inner c = true.
Proof.
  unfold inner. intros L.
  destruct (Z.eqb_spec c (chr "@")) as [->|_]; [discriminate|].
  destruct (Z.eqb_spec c (chr "<")) as [->|_]; [discriminate|].
  reflexivity.
Qed.

Lemma terminator_inner c : terminator c = true -> inner c = true.
Proof.
  intros T.
  destruct (terminator_inv c T) as [-> | [-> | [-> | [-> | ->]]]];
    reflexivity.
Qed.

Lemma forallb_impl (f g : Z -> bool) l :
  (forall c, f c = true -> g c = true) ->
  forallb f l = true -> forallb g l = true.
Proof.
  intros I. induction l as [|x l IH]; simpl; [auto|].
  rewrite !andb_true_iff. intros [Hx Hl]. auto.
Qed.

Lemma boundary_not_inner c follow :
  boundary (c :: follow) = true -> inner c = false.
Proof.
  unfold inner. simpl. intros ->. reflexivity.
Qed.

(** Inner code points read from [a ++ follow] all come from [a] when
    [follow] starts a new decision. *)
Lemma inner_within p : forall a follow u,
  forallb inner p = true -> a ++ follow = p ++ u ->
  boundary follow = true ->
  exists a', a = p ++ a' /\ u = a' ++ follow.
Proof.
  induction p as [|x p IH]; intros a follow u L E B.
  - exists a. auto.
  - simpl in L. apply andb_true_iff in L. destruct L as [Lx Lp].
    destruct a as [|y a].
    + simpl in E. subst follow.
      rewrite (boundary_not_inner _ _ B) in Lx. discriminate.
    + simpl in E. injection E as -> E.
      destruct (IH a follow u Lp E B) as (a' & -> & ->).
      exists a'. auto.
Qed.

Lemma letters_within p a follow u :
  forallb ascii_letter p = true -> a ++ follow = p ++ u ->
  boundary follow = true ->
  exists a', a = p ++ a' /\ u = a' ++ follow.
Proof.
  intros L. apply inner_within.
  revert L. apply forallb_impl. exact letter_inner.
Qed.

(** One pass inside accumulated content goes round again, having consumed
    a non-empty part of the content and marked the position it stops at. *)
Lemma body_over_content content follow hc pos m s :
  content <> [] -> accumulates content follow = true ->
  boundary follow = true ->
  exists p tl ms, content = p ++ tl /\ p <> [] /\
    accumulates tl follow = true /\
    loop_body hc (mkLexer (content ++ follow) pos m s) =
    Continue (mkLexer (tl ++ follow) (List.length p + pos)
                      ((List.length p + pos)%nat :: ms) s).
Proof.
  destruct content as [|c tl0]; [congruence|]. intros _ A B.
  simpl in A. apply andb_true_iff in A. destruct A as [A Atl].
  apply andb_true_iff in A. destruct A as [T C].
  apply negb_true_iff in T, C.
  change ((c :: tl0) ++ follow) with (c :: tl0 ++ follow) in *.
  destruct (Z.eq_dec c (chr "@")) as [->|Hat].
  { exists [chr "@"], tl0, (pos :: m). repeat split; try discriminate; auto.
    apply body_at. exact T. }
  destruct (Z.eq_dec c (chr "<")) as [->|Hlt].
  2:{ exists [c], tl0, m. repeat split; try discriminate; auto.
      apply body_other; assumption. }
  destruct (Z.eq_dec (hd 0 (tl0 ++ follow)) (chr "/")) as [Hs|Hs].
  2:{ exists [chr "<"], tl0, (pos :: m).
      repeat split; try discriminate; auto.
      apply body_lt. exact Hs. }
  destruct tl0 as [|b tl1].
  { destruct follow as [|f follow]; [discriminate|]. simpl in Hs. subst f.
    discriminate B. }
  simpl in Hs. subst b.
  change ((chr "/" :: tl1) ++ follow) with (chr "/" :: tl1 ++ follow) in *.
  rewrite body_close.
  simpl in C.
  rewrite (close_tag_name_answer (mkLexer (tl1 ++ follow) 0 [] None)
             (mkLexer (tl1 ++ follow) (S (S pos)) (pos :: m) s) eq_refl) in C.
  destruct (close_tag_name_result
              (mkLexer (tl1 ++ follow) (S (S pos)) (pos :: m) s))
    as (p1 & (U & P & M & R) & L & _).
  destruct (close_tag_name _) as [found [u1 pos1 m1 s1]].
  simpl in C, U, P, M, R. subst found m1 s1.
  destruct (letters_within p1 tl1 follow u1 L U B) as (tl2 & -> & ->).
  exists (chr "<" :: chr "/" :: p1), tl2, (pos :: m).
  split; [reflexivity|]. split; [discriminate|].
  split.
  - simpl in Atl. apply andb_true_iff in Atl. destruct Atl as [_ Atl].
    apply accumulates_suffix in Atl. exact Atl.
  - unfold mark_end. simpl. subst pos1.
    replace (S (S (List.length p1 + pos))) with (S (S pos) + List.length p1)%nat
      by lia.
    reflexivity.
Qed.

(** The loop passes over accumulated content and arrives at what follows
    it with [has_content] set and the position marked. *)
Lemma runs_over_content follow :
  boundary follow = true ->
  forall n content hc pos m s,
    (List.length content <= n)%nat -> content <> [] ->
    accumulates content follow = true ->
    exists ms, forall r,
      runs true (mkLexer follow (List.length content + pos)
                         ((List.length content + pos)%nat :: ms) s) r ->
      runs hc (mkLexer (content ++ follow) pos m s) r.
Proof.
  intros B. induction n as [|n IH]; intros content hc pos m s Hn Hne A.
  - destruct content; [congruence | simpl in Hn; lia].
  - destruct (body_over_content content follow hc pos m s Hne A B)
      as (p & tl & ms & -> & Hp & Atl & Body).
    rewrite length_app in Hn.
    assert (0 < List.length p)%nat
      by (destruct p; [congruence | simpl; lia]).
    destruct tl as [|x tl].
    + rewrite app_nil_r in *. simpl in Body.
      exists ms. intros r Hr. eapply runs_continue; [exact Body|].
      exact Hr.
    + destruct (IH (x :: tl) true (List.length p + pos)%nat
                   ((List.length p + pos)%nat :: ms) s
                   ltac:(lia) ltac:(discriminate) Atl) as (ms' & Hms').
      exists ms'. intros r Hr. eapply runs_continue; [exact Body|].
      apply Hms'. rewrite length_app in Hr.
      replace (List.length (x :: tl) + (List.length p + pos))%nat
        with (List.length p + List.length (x :: tl) + pos)%nat by lia.
      exact Hr.
Qed.

Lemma stop_at_boundary l : stop_at l = true -> boundary l = true.
Proof.
  destruct l as [|a [|b l]]; simpl; auto; try discriminate.
  rewrite !orb_true_iff, !andb_true_iff. intros [[H _] | [[H _] _]]; auto.
Qed.

(** At a stop, with content accumulated and the position marked, the loop
    returns a [RAW_TEXT] token that ends at this position. *)
Lemma runs_stop_with_content follow e ms s :
  stop_at follow = true ->
  exists lx', runs true (mkLexer follow e (e :: ms) s) (true, lx') /\
    result_symbol lx' = Some RAW_TEXT /\ token_end lx' = e.
Proof.
  intros H. destruct follow as [|a follow].
  - eexists. split; [apply runs_return; rewrite body_eof; reflexivity|].
    auto.
  - unfold stop_at in H. apply orb_true_iff in H. destruct H as [H|H].
    + destruct follow as [|b follow]; [discriminate|].
      simpl in H. apply andb_true_iff in H. destruct H as [Ha Hb].
      apply Z.eqb_eq in Ha, Hb. subst a b.
      eexists. split; [apply runs_return; rewrite body_trigger; reflexivity|].
      auto.
    + apply close_tag_at_iff in H.
      destruct H as (p & t & r & E & A & T). rewrite E.
      eexists. split.
      * apply runs_return. rewrite body_close.
        rewrite close_tag_name_accepts by assumption. reflexivity.
      * auto.
Qed.

(** Content the scanner accumulates, followed by a stop: one [RAW_TEXT]
    token that ends where the content ends. *)
Lemma content_then_stop content follow hc pos m s :
  content <> [] -> accumulates content follow = true ->
  stop_at follow = true ->
  exists lx', runs hc (mkLexer (content ++ follow) pos m s) (true, lx') /\
    result_symbol lx' = Some RAW_TEXT /\
    token_end lx' = (List.length content + pos)%nat.
Proof.
  intros Hne A St.
  destruct (runs_over_content follow (stop_at_boundary _ St)
              (List.length content) content hc pos m s (le_n _) Hne A)
    as (ms & Hms).
  destruct (runs_stop_with_content follow (List.length content + pos)%nat
              ms s St) as (lx' & R & K & E).
  exists lx'. auto.
Qed.

Lemma loop_body_pass hc lx : Pass hc lx (loop_body hc lx).
Proof.
  destruct lx as [[|c r] pos m s]; [rewrite body_eof; constructor|].
  destruct (Z.eq_dec c (chr "@")) as [->|Hat].
  { destruct (trigger_at (chr "@" :: r)) eqn:T.
    - destruct r as [|b r]; [discriminate|]. simpl in T.
      apply Z.eqb_eq in T. subst b. rewrite body_trigger. constructor.
    - rewrite body_at by exact T.
      apply (pass_content hc [chr "@"] r pos m (pos :: m) s);
        [discriminate | auto]. }
  destruct (Z.eq_dec c (chr "<")) as [->|Hlt].
  2:{ rewrite body_other by assumption.
      apply (pass_content hc [c] r pos m m s); [discriminate | auto]. }
  destruct (Z.eq_dec (hd 0 r) (chr "/")) as [Hs|Hs].
  2:{ rewrite body_lt by exact Hs.
      apply (pass_content hc [chr "<"] r pos m (pos :: m) s);
        [discriminate | auto]. }
  destruct r as [|b r]; [discriminate|]. simpl in Hs. subst b.
  rewrite body_close.
  destruct (fst (close_tag_name (mkLexer r (S (S pos)) (pos :: m) s))) eqn:F.
  - destruct (close_tag_name_true_inv _ F) as (p & t & r' & U & A & T).
    simpl in U. subst r.
    rewrite close_tag_name_accepts by assumption.
    pose proof (pass_close hc p t r' pos m s A T) as PC.
    destruct hc; exact PC.
  - destruct (close_tag_name_result (mkLexer r (S (S pos)) (pos :: m) s))
      as (p & (U & P & M & R) & _).
    destruct (close_tag_name _) as [found [u1 pos1 m1 s1]].
    simpl in F, U, P, M, R. subst found r pos1 m1 s1.
    unfold mark_end. simpl.
    pose proof (pass_content hc (chr "<" :: chr "/" :: p) u1 pos m (pos :: m)
                  s ltac:(discriminate) ltac:(auto)) as PC.
    simpl in PC.
    replace (S (S (List.length p + pos))) with (S (S (pos + List.length p)))
      in PC by lia.
    exact PC.
Qed.

(** Going round again: the position has moved on and is marked. *)
Lemma body_continue_marked hc lx lx' :
  loop_body hc lx = Continue lx' ->
  (position lx < position lx')%nat /\
  (exists ms, marks lx' = position lx' :: ms) /\
  result_symbol lx' = result_symbol lx.
Proof.
  intros E. pose proof (loop_body_pass hc lx) as P. rewrite E in P.
  inversion P as [| | |p r pos m ms s Hp Hms]; subst.
  simpl. repeat split; eauto.
  destruct p; [congruence | simpl; lia].
Qed.

(** Returning with content accumulated: always a [RAW_TEXT] token. *)
Lemma body_return_content lx b lx' :
  loop_body true lx = Return (b, lx') ->
  b = true /\ result_symbol lx' = Some RAW_TEXT /\
  (marks lx' = marks lx \/ marks lx' = position lx :: marks lx).
Proof.
  intros E. pose proof (loop_body_pass true lx) as P. rewrite E in P.
  inversion P; subst; simpl in *; auto.
Qed.

(** Returning on the first pass: the interpolation start, or a decline that
    has marked nothing but the starting position. *)
Lemma body_return_first lx b lx' :
  loop_body false lx = Return (b, lx') ->
  (b = true /\ result_symbol lx' = Some RAW_TEXT_INTERPOLATION_START /\
   marks lx' = S (S (position lx)) :: position lx :: marks lx /\
   unread lx = chr "@" :: chr "{" :: unread lx') \/
  (b = false /\ result_symbol lx' = result_symbol lx /\
   (marks lx' = marks lx \/ marks lx' = position lx :: marks lx)).
Proof.
  intros E. pose proof (loop_body_pass false lx) as P. rewrite E in P.
  inversion P; subst; simpl in *; auto.
Qed.

(** ** The loop with content accumulated *)

(** Once [has_content] is set and the position is marked, the loop can only
    return a [RAW_TEXT] token, and the token ends no earlier than here. *)
Lemma scan_loop_content budget : forall lx b lx',
  scan_loop budget true lx = Some (b, lx') ->
  token_end lx = position lx -> marks lx <> [] ->
  b = true /\ result_symbol lx' = Some RAW_TEXT /\
  (position lx <= token_end lx')%nat /\ marks lx' <> [].
Proof.
  induction budget as [|n IH]; intros lx b lx' H T M; [discriminate|].
  simpl in H. destruct (loop_body true lx) as [r|lx1] eqn:B.
  - injection H as ->.
    destruct (body_return_content _ _ _ B) as (-> & K & [E|E]).
    + unfold token_end in *. rewrite E.
      destruct (marks lx) as [|m0 ms0]; [congruence|].
      repeat split; auto; try lia; discriminate.
    + unfold token_end. rewrite E. repeat split; auto. discriminate.
  - destruct (body_continue_marked _ _ _ B) as (P & (ms & Ms) & _).
    destruct (IH lx1 b lx' H) as (Hb & K & Le & Ne).
    + unfold token_end. rewrite Ms. reflexivity.
    + rewrite Ms. discriminate.
    + repeat split; auto. lia.
Qed.

(** What the loop can return when started without content. *)
Lemma scan_loop_first budget lx b lx' :
  scan_loop budget false lx = Some (b, lx') ->
  (b = false /\ result_symbol lx' = result_symbol lx /\
   (marks lx' = marks lx \/ marks lx' = position lx :: marks lx)) \/
  (b = true /\ result_symbol lx' = Some RAW_TEXT_INTERPOLATION_START /\
   marks lx' = S (S (position lx)) :: position lx :: marks lx /\
   unread lx = chr "@" :: chr "{" :: unread lx') \/
  (b = true /\ result_symbol lx' = Some RAW_TEXT /\
   (position lx < token_end lx')%nat /\ marks lx' <> []).
Proof.
  destruct budget as [|n]; [discriminate|]. simpl.
  destruct (loop_body false lx) as [r|lx1] eqn:B.
  - intros H. injection H as ->.
    destruct (body_return_first _ _ _ B) as [H|H]; auto.
  - intros H.
    destruct (body_continue_marked _ _ _ B) as (P & (ms & Ms) & _).
    destruct (scan_loop_content n lx1 b lx' H) as (Hb & K & Le & Ne).
    + unfold token_end. rewrite Ms. reflexivity.
    + rewrite Ms. discriminate.
    + right. right. repeat split; auto. lia.
Qed.

(** ** Stops with no content before them *)

Lemma stop_first_eof pos m s :
  runs false (mkLexer [] pos m s) (false, mkLexer [] pos m s).
Proof. apply runs_return. reflexivity. Qed.

Lemma stop_first_trigger r pos m s :
  runs false (mkLexer (chr "@" :: chr "{" :: r) pos m s)
    (true, mkLexer r (S (S pos)) (S (S pos) :: pos :: m)
                   (Some RAW_TEXT_INTERPOLATION_START)).
Proof. apply runs_return. reflexivity. Qed.

Lemma stop_first_close p t r pos m s :
  accepted_name p = true -> terminator t = true ->
  runs false (mkLexer (chr "<" :: chr "/" :: p ++ t :: r) pos m s)
    (false, mkLexer (t :: r) (List.length p + S (S pos)) (pos :: m) s).
Proof.
  intros A T. apply runs_return. rewrite body_close.
  rewrite close_tag_name_accepts by assumption. reflexivity.
Qed.

(** ** Plain content is accumulated *)

Lemma recognized_close_at_intro p t r :
  recognized_name p = true -> terminator t = true ->
  recognized_close_at (chr "<" :: chr "/" :: p ++ t :: r) = true.
Proof.
  intros Hp Ht. unfold recognized_name in Hp.
  repeat (apply orb_true_iff in Hp; destruct Hp as [Hp|Hp]);
    apply codes_eqb_eq in Hp.
  - change (codes "style") with [115;116;121;108;101] in Hp.
    spell Hp; cbn -[terminator]; rewrite Ht; reflexivity.
  - change (codes "script") with [115;99;114;105;112;116] in Hp.
    spell Hp; cbn -[terminator]; rewrite Ht; reflexivity.
  - subst p. cbn -[terminator]. rewrite Ht. reflexivity.
Qed.

Lemma fallthrough_starts p l :
  fallthrough_name p = true ->
  starts_with (codes "</SQ") (chr "<" :: chr "/" :: p ++ l) = true.
Proof.
  destruct p as [|a [|b q]]; simpl; try discriminate.
  intros H. apply andb_true_iff in H. destruct H as [H _].
  apply andb_true_iff in H. destruct H as [Ha Hb].
  apply Z.eqb_eq in Ha, Hb. subst a b. reflexivity.
Qed.

Lemma accepted_letters p :
  accepted_name p = true -> forallb ascii_letter p = true.
Proof.
  intros A.
  pose proof (close_tag_name_accepts p (chr ">") [] 0 [] None A eq_refl) as E.
  destruct (close_tag_name_result (mkLexer (p ++ [chr ">"]) 0 [] None))
    as (q & (U & _) & L & _).
  rewrite E in U. simpl in U.
  assert (q = p); [|congruence].
  clear E A. revert q L U.
  induction p as [|x p IH]; intros q L U.
  - destruct q as [|y q]; [reflexivity|].
    simpl in U, L. injection U as <- _. discriminate.
  - destruct q as [|y q].
    + simpl in U. injection U as _ U.
      destruct p; discriminate.
    + simpl in U, L. injection U as <- U.
      apply andb_true_iff in L. f_equal. apply IH; tauto.
Qed.

(** A stop inside the content, seen with what follows appended, already
    shows in the content. *)
Lemma stop_inside_content c tl follow :
  boundary follow = true ->
  trigger_at ((c :: tl) ++ follow) || close_tag_at ((c :: tl) ++ follow)
    = true ->
  trigger_at (c :: tl) = true \/ recognized_close_at (c :: tl) = true \/
  starts_with (codes "</SQ") (c :: tl) = true.
Proof.
  intros B H. apply orb_true_iff in H. destruct H as [H|H].
  - left. destruct tl as [|b tl]; [|exact H].
    destruct follow as [|f follow]; [discriminate|].
    simpl in H. apply andb_true_iff in H. destruct H as [_ H].
    apply Z.eqb_eq in H. subst f. discriminate.
  - right. apply close_tag_at_iff in H.
    destruct H as (p & t & r & E & A & T).
    simpl in E. injection E as -> E.
    assert (I : forallb inner (chr "/" :: p ++ [t]) = true).
    { simpl. rewrite forallb_app. simpl.
      rewrite (terminator_inner _ T), andb_true_r.
      apply (forallb_impl ascii_letter); [exact letter_inner|].
      apply accepted_letters. exact A. }
    destruct (inner_within _ tl follow r I) as (a' & -> & _); [|exact B|].
    { rewrite E. simpl. rewrite <- app_assoc. reflexivity. }
    unfold accepted_name in A. apply orb_true_iff in A.
    destruct A as [A|A].
    + left. simpl app. rewrite <- app_assoc.
      apply recognized_close_at_intro; assumption.
    + right. simpl app. rewrite <- app_assoc.
      apply fallthrough_starts. exact A.
Qed.

Lemma occurs_cons f c tl : occurs f (c :: tl) = f (c :: tl) || occurs f tl.
Proof. reflexivity. Qed.

Lemma plain_content_accumulates content follow :
  plain_content content = true -> boundary follow = true ->
  accumulates content follow = true.
Proof.
  unfold plain_content. rewrite !andb_true_iff, !negb_true_iff.
  intros [[T C] Q] B.
  induction content as [|c tl IH]; [reflexivity|].
  rewrite occurs_cons in T, C, Q. apply orb_false_iff in T, C, Q.
  destruct T as [T T'], C as [C C'], Q as [Q Q'].
  change (accumulates (c :: tl) follow)
    with (negb (trigger_at ((c :: tl) ++ follow)) &&
          negb (close_tag_at ((c :: tl) ++ follow)) &&
          accumulates tl follow).
  rewrite (IH T' C' Q'), andb_true_r, <- negb_orb, negb_true_iff.
  destruct (trigger_at ((c :: tl) ++ follow) ||
            close_tag_at ((c :: tl) ++ follow)) eqn:S; [|reflexivity].
  destruct (stop_inside_content c tl follow B S) as [H | [H | H]];
    congruence.
Qed.

(** ** From the loop to the entry point *)

Lemma scan_in_region sc lx v :
  in_region v ->
  scan sc lx v = scan_raw_text sc lx v.
Proof.
  unfold in_region, scan.
  intros ->. reflexivity.
Qed.

Lemma runs_emits sc lx v lx' k e :
  in_region v -> runs false lx (true, lx') ->
  result_symbol lx' = Some k -> token_end lx' = e ->
  emits (scan sc lx v) k e.
Proof.
  intros V R K E. rewrite (scan_in_region _ _ _ V).
  rewrite (runs_scan_raw_text sc lx v _ _ R).
  eexists. split; [reflexivity|]. simpl. auto.
Qed.

Lemma runs_declines sc lx v lx' :
  in_region v -> runs false lx (false, lx') ->
  declines (scan sc lx v).
Proof.
  intros V R. rewrite (scan_in_region _ _ _ V).
  rewrite (runs_scan_raw_text sc lx v _ _ R).
  eexists. split; [reflexivity|]. reflexivity.
Qed.

Lemma scan_returns sc lx v :
  exists o, scan sc lx v = Some o.
Proof.
  unfold scan.
  destruct (_ || _); [|eauto].
  destruct (runs_total false lx) as [[b lx'] R].
  rewrite (runs_scan_raw_text sc lx v _ _ R). eauto.
Qed.

Lemma emits_declines_excl o k e : emits o k e -> declines o -> False.
Proof.
  intros (o1 & E1 & H1 & _) (o2 & E2 & H2). congruence.
Qed.

Lemma emits_fun o k e k' e' : emits o k e -> emits o k' e' -> k = k' /\ e = e'.
Proof.
  intros (o1 & E1 & _ & K1 & T1) (o2 & E2 & _ & K2 & T2).
  assert (o1 = o2) by congruence. subst o2. split; congruence.
Qed.

Lemma recognized_accepted n :
  recognized_name n = true -> accepted_name n = true.
Proof. unfold accepted_name. intros ->. reflexivity. Qed.

Lemma close_stop n t rest :
  accepted_name n = true -> terminator t = true ->
  stop_at (codes "</" ++ n ++ t :: rest) = true.
Proof.
  intros A T. change (codes "</" ++ n ++ t :: rest)
    with (chr "<" :: chr "/" :: n ++ t :: rest).
  unfold stop_at. apply orb_true_iff. right.
  apply close_tag_at_iff. eauto 6.
Qed.

(** An accepted closing tag ends the scan: with nothing before it the scan
    declines, with one code point of content before it the token is that
    code point. *)
Lemma closing_tag_ends_scan sc v n t rest :
  in_region v -> accepted_name n = true -> terminator t = true ->
  declines (scan_input sc v (codes "</" ++ n ++ t :: rest)) /\
  emits (scan_input sc v (chr "x" :: codes "</" ++ n ++ t :: rest)) RAW_TEXT 1.
Proof.
  intros V A T. split.
  - eapply runs_declines; [exact V|].
    apply (stop_first_close n t rest); assumption.
  - pose proof (close_stop n t rest A T) as St.
    destruct (content_then_stop [chr "x"] _ false 0%nat [] None
                ltac:(discriminate)
                (plain_content_accumulates [chr "x"] _ eq_refl
                   (stop_at_boundary _ St)) St)
      as (lx' & R & K & E).
    apply (runs_emits sc _ v lx'); auto.
Qed.

(** * The claims *)

(** ** C1 *)

(** Where the property holds: content the scan accumulates (no position
    of it begins the trigger or a closing tag the scanner accepts), followed
    by a recognized closing tag that ends in [>], space, tab, line feed or
    carriage return.  One scan call emits a [RAW_TEXT] token that ends where
    the content ends, and the scan call that starts at the closing tag
    declines, so that the grammar matches the tag. *)
Lemma raw_text_up_to_first_accepted_tag sc v content n t rest :
  in_region v -> content <> [] ->
  accumulates content (codes "</" ++ n ++ t :: rest) = true ->
  recognized_name n = true -> terminator t = true ->
  emits (scan_input sc v (content ++ codes "</" ++ n ++ t :: rest))
        RAW_TEXT (List.length content) /\
  declines (scan sc
              (lexer_at (List.length content) (codes "</" ++ n ++ t :: rest))
              v).
Proof.
  intros V Hne A N T.
  pose proof (close_stop n t rest (recognized_accepted n N) T) as St.
  split.
  - destruct (content_then_stop content _ false 0%nat [] None Hne A St)
      as (lx' & R & K & E).
    apply (runs_emits sc _ v lx'); auto. rewrite E. lia.
  - eapply runs_declines; [exact V|].
    apply (stop_first_close n t rest); auto using recognized_accepted.
Qed.

(** C1, at the failing input [a</SQtyle>b</style>]: the content
    [a</SQtyle>b] is not empty, holds no interpolation trigger and no
    correctly terminated recognized closing tag, and is followed at once by
    the correctly terminated recognized closing tag [</style>]; yet the
    token the scan emits ends after [a], in front of [</SQtyle>], and not
    after the eleven code points of the content.  (The name [SQtyle] is
    accepted by the fall-through of line 186 after [S] and [Q] were
    consumed for the [SQL] test.) *)
Theorem content_cut_at_fallthrough_name sc :
  codes "a</SQtyle>b" <> [] /\
  occurs trigger_at (codes "a</SQtyle>b") = false /\
  occurs recognized_close_at (codes "a</SQtyle>b") = false /\
  recognized_name (codes "style") = true /\
  terminator (chr ">") = true /\
  emits (scan_input sc all_valid
           (codes "a</SQtyle>b" ++ codes "</" ++ codes "style" ++ [chr ">"]))
        RAW_TEXT 1 /\
  List.length (codes "a</SQtyle>b") = 11%nat.
Proof.
  split; [discriminate|].
  repeat (split; [reflexivity|]).
  split; [|reflexivity].
  eapply runs_emits; [reflexivity | exists 2%nat; vm_compute; reflexivity
                     | reflexivity | reflexivity].
Qed.

(** ** C2 *)

(** A ["</"] sequence whose name the matcher rejects is content: the pass
    goes round again, and the position it marks lies after everything the
    matcher examined (["</"] and the letters [p] it consumed). *)
Lemma rejected_name_is_content hc r pos m s :
  fst (close_tag_name (mkLexer r (S (S pos)) (pos :: m) s)) = false ->
  exists p u, r = p ++ u /\ forallb ascii_letter p = true /\
    loop_body hc (mkLexer (chr "<" :: chr "/" :: r) pos m s) =
    Continue (mkLexer u (List.length p + S (S pos))
                      ((List.length p + S (S pos))%nat :: pos :: m) s).
Proof.
  intros F. rewrite body_close.
  destruct (close_tag_name_result (mkLexer r (S (S pos)) (pos :: m) s))
    as (p & (U & P & M & R) & L & _).
  destruct (close_tag_name _) as [found [u1 pos1 m1 s1]].
  simpl in F, U, P, M, R. subst found r pos1 m1 s1.
  exists p, u1. repeat split; auto.
  unfold mark_end. simpl.
  replace (S (S (pos + List.length p))) with (List.length p + S (S pos))%nat
    by lia.
  reflexivity.
Qed.

(** The example of the specification: inside a region, [a</div>b</style>]
    yields one [RAW_TEXT] token spanning [a</div>b], and the scan that
    starts at [</style>] declines. *)
Lemma div_inside_style sc v :
  in_region v ->
  emits (scan_input sc v (codes "a</div>b</style>")) RAW_TEXT 8 /\
  declines (scan sc (lexer_at 8 (codes "</style>")) v).
Proof.
  intros V. split.
  - eapply runs_emits; [exact V | exists 9%nat; vm_compute; reflexivity
                       | reflexivity | reflexivity].
  - eapply runs_declines; [exact V | exists 1%nat; vm_compute; reflexivity].
Qed.

Lemma fallthrough_not_recognized p :
  fallthrough_name p = true -> recognized_name p = false.
Proof.
  destruct p as [|a [|b q]]; try discriminate.
  unfold fallthrough_name. intros H.
  apply andb_true_iff in H. destruct H as [H Hq].
  apply andb_true_iff in H. destruct H as [Ha Hb].
  apply Z.eqb_eq in Ha, Hb. subst a b.
  unfold recognized_name.
  destruct q as [|c [|d q]]; [discriminate Hq | |].
  - exfalso. simpl in Hq. unfold tail_name in Hq. simpl in Hq.
    rewrite !andb_false_r in Hq. discriminate Hq.
  - simpl. rewrite !andb_false_r. reflexivity.
Qed.

(** The whole family: every name [SQ...] or [SQL...] whose tail folds to
    [tyle] or [cript] is none of the three recognized names and ends the
    scan all the same. *)
Lemma fallthrough_names_end_scan sc v p t rest :
  in_region v -> fallthrough_name p = true -> terminator t = true ->
  recognized_name p = false /\
  declines (scan_input sc v (codes "</" ++ p ++ t :: rest)) /\
  emits (scan_input sc v (chr "x" :: codes "</" ++ p ++ t :: rest))
        RAW_TEXT 1.
Proof.
  intros V F T. split; [apply fallthrough_not_recognized; exact F|].
  apply closing_tag_ends_scan; auto.
  unfold accepted_name. rewrite F. apply orb_true_r.
Qed.

(** C2, at the failing input [a</SQtyle>b]: the name [SQtyle] is none of
    the three recognized names, yet the scanner stops in front of
    [</SQtyle>] as in front of a closing tag: the token spans [a] alone,
    and the scan that starts at [</SQtyle>] declines.  (After [S] and [Q]
    are consumed and [L] is not found, line 186 goes on to test for [tyle]
    as if only [S] had been consumed.) *)
Theorem unrecognized_name_ends_raw_text sc :
  recognized_name (codes "SQtyle") = false /\
  emits (scan_input sc all_valid (codes "a</SQtyle>b")) RAW_TEXT 1 /\
  declines (scan sc (lexer_at 1 (codes "</SQtyle>b")) all_valid).
Proof.
  split; [reflexivity|]. split.
  - eapply runs_emits; [reflexivity | exists 2%nat; vm_compute; reflexivity
                       | reflexivity | reflexivity].
  - eapply runs_declines; [reflexivity | exists 1%nat; vm_compute; reflexivity].
Qed.

(** ** C3 *)

Lemma runs_continue_inv hc lx lx1 b lx' :
  runs hc lx (b, lx') -> loop_body hc lx = Continue lx1 ->
  b = true /\ result_symbol lx' = Some RAW_TEXT /\
  (position lx1 <= token_end lx')%nat.
Proof.
  intros [budget R] B. destruct budget as [|n]; [discriminate|].
  simpl in R. rewrite B in R.
  destruct (body_continue_marked _ _ _ B) as (_ & (ms & Ms) & _).
  destruct (scan_loop_content n lx1 b lx' R) as (Hb & K & Le & _); auto.
  - unfold token_end. rewrite Ms. reflexivity.
  - rewrite Ms. discriminate.
Qed.

Lemma scan_some_runs sc lx v o :
  in_region v ->
  scan sc lx v = Some o ->
  runs false lx (handled o, lexer o).
Proof.
  intros V. rewrite (scan_in_region _ _ _ V). unfold scan_raw_text.
  destruct (scan_loop _ false lx) as [[b lx']|] eqn:E; [|discriminate].
  intros H. injection H as <-. simpl. eexists. exact E.
Qed.

(** When the first pass over the input goes round again, the scan emits a
    [RAW_TEXT] token that reaches at least as far as that pass went. *)
Lemma first_pass_content sc lx v lx1 :
  in_region v -> loop_body false lx = Continue lx1 ->
  ~ declines (scan sc lx v) /\
  forall k e, emits (scan sc lx v) k e ->
              k = RAW_TEXT /\ (position lx1 <= e)%nat.
Proof.
  intros V B. split.
  - intros (o & E & H). apply (scan_some_runs _ _ _ _ V) in E.
    rewrite H in E.
    destruct (runs_continue_inv _ _ _ _ _ E B) as (D & _). discriminate.
  - intros k e (o & E & H & K & T). apply (scan_some_runs _ _ _ _ V) in E.
    destruct (runs_continue_inv _ _ _ _ _ E B) as (_ & K' & Le).
    split; [congruence | lia].
Qed.

(** The same after one code point of content. *)
Lemma second_pass_content sc v c input lx2 :
  in_region v -> inner c = true ->
  loop_body true (mkLexer input 1 [1%nat] None) = Continue lx2 ->
  forall k e, emits (scan_input sc v (c :: input)) k e ->
              k = RAW_TEXT /\ (position lx2 <= e)%nat.
Proof.
  intros V I B k e (o & E & H & K & T).
  apply (scan_some_runs _ _ _ _ V) in E.
  destruct E as [budget R]. destruct budget as [|n]; [discriminate|].
  simpl in R. unfold inner in I. apply negb_true_iff, orb_false_iff in I.
  destruct I as [I1 I2]. apply Z.eqb_neq in I1, I2.
  unfold lexer_at in R. rewrite body_other in R by assumption.
  destruct (runs_continue_inv true _ _ _ _ (ex_intro _ n R) B)
    as (_ & K' & Le).
  split; [congruence | lia].
Qed.

(** The spellings of [sql] other than [SQL] are not matched: the pass that
    meets them goes round again, beyond position [pos + 2]. *)
Lemma sql_spelling_is_content n :
  map fold_ascii n = codes "sql" -> n <> codes "SQL" ->
  forall hc t rest pos m s, exists lx1,
    loop_body hc (mkLexer (codes "</" ++ n ++ t :: rest) pos m s) =
    Continue lx1 /\ (pos + 2 < position lx1)%nat.
Proof.
  intros H Hn hc t rest pos m s.
  change (codes "sql") with [115; 113; 108] in H.
  spell H;
    first [ exfalso; apply Hn; reflexivity
          | eexists; split; [reflexivity | simpl; lia] ].
Qed.

Lemma letter_not_terminator c : ascii_letter c = true -> terminator c = false.
Proof.
  intros L. destruct (terminator c) eqn:T; [|reflexivity].
  destruct (terminator_inv c T) as [-> | [-> | [-> | [-> | ->]]]];
    discriminate.
Qed.

(** Two readings of the same input as "name, terminator, rest" agree on
    the name. *)
Lemma name_before_terminator p : forall n t t' r r',
  forallb (fun c => negb (terminator c)) p = true ->
  forallb (fun c => negb (terminator c)) n = true ->
  terminator t = true -> terminator t' = true ->
  p ++ t' :: r' = n ++ t :: r -> p = n.
Proof.
  induction p as [|x p IH]; intros n t t' r r' Hp Hn T T' E.
  - destruct n as [|y n]; [reflexivity|].
    simpl in E, Hn. injection E as -> _.
    rewrite T' in Hn. discriminate.
  - destruct n as [|y n].
    + simpl in E, Hp. injection E as -> _.
      rewrite T in Hp. discriminate.
    + simpl in E, Hp, Hn. injection E as -> E.
      apply andb_true_iff in Hp, Hn.
      f_equal. apply (IH n t t' r r'); tauto.
Qed.

(** A scan that declines in front of ["</"], a name free of terminators
    and a terminator has accepted the name. *)
Lemma declined_name_accepted sc v n t rest pos :
  in_region v -> terminator t = true ->
  forallb (fun c => negb (terminator c)) n = true ->
  declines (scan sc
              (lexer_at pos (codes "</" ++ n ++ t :: rest)) v) ->
  accepted_name n = true.
Proof.
  intros V T Hn (o & E & H).
  apply (scan_some_runs _ _ _ _ V) in E. rewrite H in E.
  pose proof (loop_body_pass false
                (lexer_at pos (codes "</" ++ n ++ t :: rest))) as P.
  destruct (loop_body false _) as [r|lx1] eqn:B.
  - unfold lexer_at in P.
    change (codes "</" ++ n ++ t :: rest)
      with (chr "<" :: chr "/" :: n ++ t :: rest) in P.
    inversion P as [| |p t' r' pos' m' s' A T' E1 E2|]; subst.
    assert (p = n); [|congruence].
    apply (name_before_terminator p n t t' rest r'); auto.
    apply (forallb_impl ascii_letter).
    + intros c L. rewrite (letter_not_terminator c L). reflexivity.
    + apply accepted_letters. exact A.
  - destruct (runs_continue_inv _ _ _ _ _ E B) as (D & _). discriminate.
Qed.

Lemma folded_name_recognized n :
  map fold_ascii n = codes "style" \/ map fold_ascii n = codes "script" ->
  recognized_name n = true.
Proof.
  unfold recognized_name. intros [-> | ->]; reflexivity.
Qed.

(** C3: inside a raw-text region, whatever the scanner state, and for every
    terminator [t]: a name that folds (ASCII letters only) to [style] or
    [script] ends the scan in any mix of cases; of the names that fold to
    [sql] exactly [SQL] does; and a name in front of which the scan declines
    is made of ASCII letters only, so no other code point is folded onto a
    letter of a name. *)
Theorem closing_name_case_rules sc v n t rest :
  in_region v -> terminator t = true ->
  (map fold_ascii n = codes "style" \/ map fold_ascii n = codes "script" ->
   declines (scan_input sc v (codes "</" ++ n ++ t :: rest)) /\
   emits (scan_input sc v (chr "x" :: codes "</" ++ n ++ t :: rest))
         RAW_TEXT 1) /\
  (map fold_ascii n = codes "sql" ->
   (declines (scan_input sc v (codes "</" ++ n ++ t :: rest)) <->
    n = codes "SQL") /\
   (emits (scan_input sc v (chr "x" :: codes "</" ++ n ++ t :: rest)) RAW_TEXT 1
    <-> n = codes "SQL")) /\
  (forallb (fun c => negb (terminator c)) n = true ->
   declines (scan_input sc v (codes "</" ++ n ++ t :: rest)) ->
   forallb ascii_letter n = true).
Proof.
  intros V T. split; [|split].
  - intros F. apply closing_tag_ends_scan; auto.
    apply recognized_accepted, folded_name_recognized, F.
  - intros F.
    assert (Yes : n = codes "SQL" ->
              declines (scan_input sc v (codes "</" ++ n ++ t :: rest)) /\
              emits (scan_input sc v (chr "x" :: codes "</" ++ n ++ t :: rest))
                    RAW_TEXT 1).
    { intros ->. apply closing_tag_ends_scan; auto. }
    split; split; try (intros E; apply (Yes E)).
    + intros D. destruct (list_eq_dec Z.eq_dec n (codes "SQL")) as [E|Ne];
        [exact E | exfalso].
      destruct (sql_spelling_is_content n F Ne false t rest 0%nat [] None)
        as (lx1 & B & _).
      apply (first_pass_content sc _ v lx1 V B). exact D.
    + intros Em. destruct (list_eq_dec Z.eq_dec n (codes "SQL")) as [E|Ne];
        [exact E | exfalso].
      destruct (sql_spelling_is_content n F Ne true t rest 1%nat [1%nat] None)
        as (lx2 & B & P).
      destruct (second_pass_content sc v (chr "x") _ lx2 V eq_refl B _ _ Em)
        as [_ Le].
      lia.
  - intros Hn D. apply accepted_letters.
    apply (declined_name_accepted sc v n t rest 0%nat); assumption.
Qed.

Lemma closing_name_case_rules_witness :
  (declines (scan_input create all_valid
               (codes "</" ++ codes "STYLE" ++ chr ">" :: []))
   /\ emits (scan_input create all_valid
              (chr "x" :: codes "</" ++ codes "STYLE" ++ chr ">" :: []))
           RAW_TEXT 1) /\
  (declines (scan_input create all_valid
               (codes "</" ++ codes "sql" ++ chr ">" :: []))
   <-> codes "sql" = codes "SQL") /\
  forallb ascii_letter (codes "STYLE") = true.
Proof.
  pose proof (closing_name_case_rules create all_valid (codes "STYLE")
                (chr ">") [] eq_refl eq_refl) as (Style & _ & Letters).
  pose proof (closing_name_case_rules create all_valid (codes "sql")
                (chr ">") [] eq_refl eq_refl) as (_ & Sql & _).
  split; [|split].
  - apply Style. left. reflexivity.
  - apply Sql. reflexivity.
  - apply Letters.
    + reflexivity.
    + apply Style. left. reflexivity.
Defined.

(** The examples of the specification. *)
Lemma closing_name_examples sc v :
  in_region v ->
  declines (scan_input sc v (codes "</STYLE>")) /\
  declines (scan_input sc v (codes "</Style>")) /\
  declines (scan_input sc v (codes "</style>")) /\
  declines (scan_input sc v (codes "</SQL>")) /\
  emits (scan_input sc v (codes "</sql>")) RAW_TEXT 6.
Proof.
  intros V.
  repeat split;
    try (eapply runs_declines;
         [exact V | exists 1%nat; vm_compute; reflexivity]).
  eapply runs_emits; [exact V | exists 5%nat; vm_compute; reflexivity
                     | reflexivity | reflexivity].
Qed.

(** ** C4 *)

(** Whenever the matcher reports a name, the code point that follows what it
    consumed is [>], space, tab, line feed or carriage return. *)
Lemma matched_name_is_terminated lx :
  fst (close_tag_name lx) = true ->
  terminator (lookahead (snd (close_tag_name lx))) = true.
Proof.
  intros H. destruct (close_tag_name_result lx) as (p & _ & _ & F).
  destruct (F H) as [T _]. rewrite tag_name_end_terminator in T. exact T.
Qed.

(** [style] and [script], in any mix of cases, followed by any other code
    point are content: the pass goes round again and marks the position
    after the name. *)
Lemma style_script_need_terminator n c rest hc pos m s :
  map fold_ascii n = codes "style" \/ map fold_ascii n = codes "script" ->
  terminator c = false ->
  loop_body hc (mkLexer (codes "</" ++ n ++ c :: rest) pos m s) =
  Continue (mkLexer (c :: rest) (List.length n + S (S pos))
                    ((List.length n + S (S pos))%nat :: pos :: m) s).
Proof.
  intros [H|H] Hc.
  - change (codes "style") with [115;116;121;108;101] in H.
    spell H; change (codes "</") with [chr "<"; chr "/"]; simpl app;
      rewrite body_close; cbn -[tag_name_end];
      rewrite tag_name_end_terminator; unfold lookahead; simpl hd;
      rewrite Hc; reflexivity.
  - change (codes "script") with [115;99;114;105;112;116] in H.
    spell H; change (codes "</") with [chr "<"; chr "/"]; simpl app;
      rewrite body_close; cbn -[tag_name_end];
      rewrite tag_name_end_terminator; unfold lookahead; simpl hd;
      rewrite Hc; reflexivity.
Qed.

(** [SQL] followed by a code point that neither ends a name nor is one of
    [t], [T], [c], [C] is content as well. *)
Lemma sql_needs_terminator c rest hc pos m s :
  terminator c = false ->
  (c =? chr "t") || (c =? chr "T") || (c =? chr "c") || (c =? chr "C")
    = false ->
  loop_body hc (mkLexer (codes "</SQL" ++ c :: rest) pos m s) =
  Continue (mkLexer (c :: rest) (5 + pos) ((5 + pos)%nat :: pos :: m) s).
Proof.
  intros T L.
  apply orb_false_iff in L. destruct L as [L LC].
  apply orb_false_iff in L. destruct L as [L Lc].
  apply orb_false_iff in L. destruct L as [Lt LT].
  change (codes "</SQL" ++ c :: rest)
    with (chr "<" :: chr "/" :: chr "S" :: chr "Q" :: chr "L" :: c :: rest).
  rewrite body_close. unfold close_tag_name, sql_tail.
  cbn -[tag_name_end style_or_script].
  rewrite tag_name_end_terminator. unfold lookahead. simpl hd. rewrite T.
  unfold style_or_script, either, lookahead. simpl hd.
  rewrite Lt, LT, Lc, LC. reflexivity.
Qed.

(** Form feed is white space and is not among the end-of-name
    characters. *)
Lemma form_feed_does_not_end_a_name sc v :
  in_region v ->
  terminator (chr "012") = false /\
  emits (scan_input sc v (codes "x</style" ++ chr "012" :: codes ">"))
        RAW_TEXT 10.
Proof.
  intros V. split; [reflexivity|].
  eapply runs_emits; [exact V | exists 5%nat; vm_compute; reflexivity
                     | reflexivity | reflexivity].
Qed.

(** C4, at the failing input [x</SQLtyle>]: the recognized name [SQL] is
    followed by [t], which ends no tag name, yet the sequence is not taken
    as content: the scanner stops in front of it as in front of a closing
    tag, the token spans [x] alone and the scan that starts at [</SQLtyle>]
    declines.  (The end-of-name test of line 170 fails, and control falls
    to line 186, which tests for [tyle] after [S], [Q] and [L] have been
    consumed.) *)
Theorem sql_followed_by_letter_ends_raw_text sc :
  recognized_name (codes "SQL") = true /\
  terminator (chr "t") = false /\
  emits (scan_input sc all_valid (codes "x</SQLtyle>")) RAW_TEXT 1 /\
  declines (scan sc (lexer_at 1 (codes "</SQLtyle>")) all_valid).
Proof.
  split; [reflexivity|]. split; [reflexivity|]. split.
  - eapply runs_emits; [reflexivity | exists 2%nat; vm_compute; reflexivity
                       | reflexivity | reflexivity].
  - eapply runs_declines; [reflexivity | exists 1%nat; vm_compute; reflexivity].
Qed.

(** ** C5 *)

(** C5: inside a raw-text region, an input that begins with the trigger
    yields [RAW_TEXT_INTERPOLATION_START] over exactly its two code points.
    A pass of the loop that meets the trigger with content accumulated
    returns [RAW_TEXT] with the end marked in front of the [@]; so the
    trigger after content the scan accumulates yields [RAW_TEXT] over that
    content alone, and the scan call that starts at the trigger then yields
    the interpolation start. *)
Theorem interpolation_trigger sc v :
  in_region v ->
  (forall rest,
     emits (scan_input sc v (codes "@{" ++ rest))
           RAW_TEXT_INTERPOLATION_START 2) /\
  (forall r pos m s,
     loop_body true (mkLexer (chr "@" :: chr "{" :: r) pos m s) =
     Return (true, mkLexer (chr "{" :: r) (S pos) (pos :: m)
                           (Some RAW_TEXT))) /\
  (forall content rest,
     content <> [] -> accumulates content (codes "@{" ++ rest) = true ->
     emits (scan_input sc v (content ++ codes "@{" ++ rest))
           RAW_TEXT (List.length content) /\
     emits (scan sc (lexer_at (List.length content) (codes "@{" ++ rest)) v)
           RAW_TEXT_INTERPOLATION_START (List.length content + 2)).
Proof.
  intros V. split; [|split].
  - intros rest. eapply runs_emits;
      [exact V | apply stop_first_trigger | reflexivity | reflexivity].
  - reflexivity.
  - intros content rest Hne A. split.
    + destruct (content_then_stop content (codes "@{" ++ rest) false 0%nat []
                  None Hne A eq_refl) as (lx' & R & K & E).
      apply (runs_emits sc _ v lx'); auto. rewrite E. lia.
    + eapply runs_emits;
        [exact V | apply stop_first_trigger | reflexivity
        | unfold token_end; simpl; lia].
Qed.

Lemma interpolation_trigger_witness :
  (emits (scan_input create all_valid (codes "@{" ++ codes "x}"))
         RAW_TEXT_INTERPOLATION_START 2) /\
  (emits (scan_input create all_valid
            (codes "a<b@" ++ codes "@{" ++ codes "x}"))
         RAW_TEXT (List.length (codes "a<b@")) /\
   emits (scan create
            (lexer_at (List.length (codes "a<b@")) (codes "@{" ++ codes "x}"))
            all_valid)
         RAW_TEXT_INTERPOLATION_START (List.length (codes "a<b@") + 2)).
Proof.
  split.
  - apply (proj1 (interpolation_trigger create all_valid eq_refl)).
  - apply (proj2 (proj2 (interpolation_trigger create all_valid eq_refl))
             (codes "a<b@") (codes "x}")).
    + discriminate.
    + reflexivity.
Defined.

(** ** C6 *)

(** C6: what a raw-text scan returns and leaves in the lexer is the same
    for every value of the scanner state, which the scan hands back
    untouched; and inside a region each of the three recognized names ends
    the scan, whatever the state holds. *)
Theorem scan_ignores_scanner_state lx v :
  (exists b lx', forall sc,
     scan_raw_text sc lx v = Some (mkOutcome b sc lx') /\
     (in_region v -> scan sc lx v = Some (mkOutcome b sc lx'))) /\
  (forall sc n t rest,
     in_region v -> recognized_name n = true -> terminator t = true ->
     declines (scan_input sc v (codes "</" ++ n ++ t :: rest)) /\
     emits (scan_input sc v (chr "x" :: codes "</" ++ n ++ t :: rest))
           RAW_TEXT 1).
Proof.
  split.
  - destruct (runs_total false lx) as [[b lx'] R].
    exists b, lx'. intros sc.
    pose proof (runs_scan_raw_text sc lx v b lx' R) as E.
    split; [exact E|]. intros V. rewrite (scan_in_region _ _ _ V). exact E.
  - intros sc n t rest V N T.
    apply closing_tag_ends_scan; auto using recognized_accepted.
Qed.

Lemma scan_ignores_scanner_state_witness :
  declines (scan_input (mkScanner 1) all_valid
              (codes "</" ++ codes "SQL" ++ chr ">" :: [])) /\
  emits (scan_input (mkScanner 1) all_valid
           (chr "x" :: codes "</" ++ codes "SQL" ++ chr ">" :: []))
        RAW_TEXT 1.
Proof.
  apply (proj2 (scan_ignores_scanner_state (lexer_at 0 []) all_valid)
           (mkScanner 1) (codes "SQL") (chr ">") []).
  - reflexivity.
  - reflexivity.
  - reflexivity.
Defined.

(** ** C7 *)

Lemma to_uint8_to_char z : 0 <= z < 256 -> to_uint8 (to_char z) = z.
Proof.
  intros H. unfold to_uint8, to_char.
  rewrite Zminus_mod_idemp_l.
  replace (z + 128 - 128) with z by lia.
  apply Z.mod_small. exact H.
Qed.

Lemma reachable_uint8 s : reachable s -> uint8_range s.
Proof.
  intros [|sc buffer length]; unfold uint8_range.
  - simpl. lia.
  - unfold deserialize. destruct (1 <=? length)%nat; simpl.
    + unfold to_uint8. apply Z.mod_pos_bound. lia.
    + lia.
Qed.

(** C7: for every reachable state [s] and every buffer with room for one
    char, [serialize] writes exactly one char, and [deserialize] of what it
    wrote restores [s] whatever the payload held before; [deserialize] of
    an empty byte sequence yields the initial state. *)
Theorem serialize_round_trip s s0 buffer :
  reachable s -> buffer <> [] ->
  fst (serialize s buffer) = 1%nat /\
  deserialize s0 (snd (serialize s buffer)) (fst (serialize s buffer)) = s /\
  (forall buf, deserialize s0 buf 0 = create) /\
  deserialize s0 [] (List.length (@nil Z)) = create.
Proof.
  intros R Hb. apply reachable_uint8 in R.
  destruct s as [mode]. unfold uint8_range in R. simpl in R.
  destruct buffer as [|b0 tl]; [congruence|].
  repeat split. simpl. unfold deserialize. simpl.
  rewrite to_uint8_to_char by exact R. reflexivity.
Qed.

Lemma serialize_round_trip_witness :
  fst (serialize (deserialize create [2] 1) [0; 0]) = 1%nat /\
  deserialize create (snd (serialize (deserialize create [2] 1) [0; 0]))
    (fst (serialize (deserialize create [2] 1) [0; 0])) =
  deserialize create [2] 1 /\
  (forall buf, deserialize create buf 0 = create) /\
  deserialize create [] (List.length (@nil Z)) = create.
Proof.
  apply (serialize_round_trip (deserialize create [2] 1) create [0; 0]).
  - apply reachable_deserialize.
  - discriminate.
Defined.

(** The round trip holds for every value the field can hold, not only the
    reachable ones. *)
Lemma serialize_round_trip_uint8 s s0 b0 tl :
  uint8_range s ->
  deserialize s0 (snd (serialize s (b0 :: tl))) (fst (serialize s (b0 :: tl)))
  = s.
Proof.
  intros R. destruct s as [mode]. unfold uint8_range in R. simpl in R.
  simpl. unfold deserialize. simpl.
  rewrite to_uint8_to_char by exact R. reflexivity.
Qed.

(** ** Every outcome of a scan call *)

(** The shape of every outcome of a scan call, from any lexer state: the
    call returns and hands the payload back; a decline has marked nothing
    but the starting position and has not written the token kind; a token
    has one of the two kinds, a marked end, and is not empty. *)
Lemma decline_or_token sc lx v :
  exists o,
    scan sc lx v = Some o /\
    payload o = sc /\
    if handled o
    then (result_symbol (lexer o) = Some RAW_TEXT \/
          result_symbol (lexer o) = Some RAW_TEXT_INTERPOLATION_START) /\
         marks (lexer o) <> [] /\
         (position lx < token_end (lexer o))%nat
    else (exists new, marks (lexer o) = new ++ marks lx /\
                      Forall (fun e => e = position lx) new) /\
         result_symbol (lexer o) = result_symbol lx.
Proof.
  unfold scan. destruct (_ || _).
  - unfold scan_raw_text.
    destruct (scan_loop_total (S (List.length (unread lx))) false lx
                ltac:(lia)) as [[b lx'] R].
    rewrite R. eexists. split; [reflexivity|]. split; [reflexivity|].
    simpl.
    destruct (scan_loop_first _ _ _ _ R)
      as [(-> & K & M) | [(-> & K & E & U) | (-> & K & Lt & Ne)]].
    + split; [|exact K].
      destruct M as [M|M]; rewrite M.
      * exists []. split; [reflexivity | constructor].
      * exists [position lx]. split; [reflexivity|].
        constructor; [reflexivity | constructor].
    + split; [auto|]. unfold token_end. rewrite E.
      split; [discriminate | lia].
    + auto.
  - eexists. split; [reflexivity|]. split; [reflexivity|]. simpl.
    split; [|reflexivity]. exists []. split; [reflexivity | constructor].
Qed.

(** ** C8 *)

(** C8: a scan call always returns.  When it declines, every position it
    marked is the position the scan started at, so no input counts as
    consumed, and the token kind is left as it was; when it returns a
    token, the kind is one of the two kinds of the scanner, an end was
    marked, and the token is not empty. *)
Theorem decline_marks_only_start sc lx v :
  exists o,
    scan sc lx v = Some o /\
    payload o = sc /\
    if handled o
    then (result_symbol (lexer o) = Some RAW_TEXT \/
          result_symbol (lexer o) = Some RAW_TEXT_INTERPOLATION_START) /\
         marks (lexer o) <> [] /\
         (position lx < token_end (lexer o))%nat
    else (exists new, marks (lexer o) = new ++ marks lx /\
                      Forall (fun e => e = position lx) new) /\
         result_symbol (lexer o) = result_symbol lx.
Proof.
  exact (decline_or_token sc lx v).
Qed.

(** ** C9 *)

(** C9: when neither [RAW_TEXT] nor [RAW_TEXT_INTERPOLATION_START] is
    valid the entry point declines at once and hands back the scanner and
    the lexer as it got them; when one of them is valid it returns what
    [scan_raw_text] returns; and a token it returns is never the error
    sentinel. *)
Theorem scan_dispatch sc lx v :
  (v RAW_TEXT = false -> v RAW_TEXT_INTERPOLATION_START = false ->
   scan sc lx v = Some (mkOutcome false sc lx)) /\
  (v RAW_TEXT = true \/ v RAW_TEXT_INTERPOLATION_START = true ->
   scan sc lx v = scan_raw_text sc lx v) /\
  (forall o,
     scan sc lx v = Some o -> handled o = true ->
     result_symbol (lexer o) <> Some ERROR_SENTINEL /\
     (result_symbol (lexer o) = Some RAW_TEXT \/
      result_symbol (lexer o) = Some RAW_TEXT_INTERPOLATION_START)).
Proof.
  split; [|split].
  - intros H1 H2. unfold scan. rewrite H1, H2. reflexivity.
  - intros H. apply scan_in_region. unfold in_region.
    apply orb_true_iff. exact H.
  - intros o E H.
    destruct (decline_or_token sc lx v) as (o' & E' & _ & K).
    assert (o' = o) by congruence. subst o'. rewrite H in K.
    destruct K as ([K|K] & _); rewrite K; split; auto; discriminate.
Qed.

Lemma scan_dispatch_witness :
  (scan create (lexer_at 0 (codes "a@{")) none_valid =
   Some (mkOutcome false create (lexer_at 0 (codes "a@{")))) /\
  (scan create (lexer_at 0 (codes "a@{")) all_valid =
   scan_raw_text create (lexer_at 0 (codes "a@{")) all_valid) /\
  (Some RAW_TEXT_INTERPOLATION_START <> Some ERROR_SENTINEL /\
   (Some RAW_TEXT_INTERPOLATION_START = Some RAW_TEXT \/
    Some RAW_TEXT_INTERPOLATION_START = Some RAW_TEXT_INTERPOLATION_START)).
Proof.
  split; [|split].
  - apply (proj1 (scan_dispatch create (lexer_at 0 (codes "a@{")) none_valid));
      reflexivity.
  - apply (proj1 (proj2 (scan_dispatch create (lexer_at 0 (codes "a@{"))
                           all_valid))).
    left. reflexivity.
  - apply (proj2 (proj2 (scan_dispatch create (lexer_at 0 (codes "@{"))
                           all_valid))
             (mkOutcome true create
                (mkLexer [] 2 [2%nat; 0%nat]
                         (Some RAW_TEXT_INTERPOLATION_START)))).
    + reflexivity.
    + reflexivity.
Defined.

(** ** C10 *)

(** C10: inside a raw-text region, at the end of the input the loop
    declines when no content was accumulated and returns [RAW_TEXT]
    otherwise; so the scan of an empty input declines, the scan of an input
    the scanner accumulates to its end yields one [RAW_TEXT] token over the
    whole input, and in every case the scan returns. *)
Theorem end_of_input sc v :
  in_region v ->
  (forall hc pos m s,
     loop_body hc (mkLexer [] pos m s) =
     Return (if hc then (true, mkLexer [] pos m (Some RAW_TEXT))
             else (false, mkLexer [] pos m s))) /\
  declines (scan_input sc v []) /\
  (forall input,
     input <> [] -> accumulates input [] = true ->
     emits (scan_input sc v input) RAW_TEXT (List.length input)) /\
  (forall lx, exists o, scan sc lx v = Some o).
Proof.
  intros V. split; [|split; [|split]].
  - intros [|] pos m s; reflexivity.
  - eapply runs_declines; [exact V | apply stop_first_eof].
  - intros input Hne A.
    destruct (content_then_stop input [] false 0%nat [] None Hne A eq_refl)
      as (lx' & R & K & E).
    rewrite app_nil_r in R.
    apply (runs_emits sc _ v lx'); auto. rewrite E. lia.
  - intros lx. apply scan_returns.
Qed.

Lemma end_of_input_witness :
  declines (scan_input create all_valid []) /\
  emits (scan_input create all_valid (codes "a@bc")) RAW_TEXT
        (List.length (codes "a@bc")).
Proof.
  split.
  - apply (proj1 (proj2 (end_of_input create all_valid eq_refl))).
  - apply (proj1 (proj2 (proj2 (end_of_input create all_valid eq_refl)))
             (codes "a@bc")).
    + discriminate.
    + reflexivity.
Defined.

(** * Further properties of the code *)

(** ** The helper [lookahead_matches_string] *)

Lemma fold_ascii_zero c : fold_ascii c = 0 <-> c = 0.
Proof.
  unfold fold_ascii. change (chr "a" - chr "A") with 32.
  change (chr "A") with 65. change (chr "Z") with 90.
  destruct (Z.leb_spec 65 c), (Z.leb_spec c 90); simpl; lia.
Qed.

Lemma consumed_one lx c r :
  unread lx = c :: r -> consumed lx (advance lx) [c].
Proof.
  destruct lx as [u p m s]. simpl. intros ->.
  unfold advance. simpl. repeat split. simpl. lia.
Qed.

Lemma lookahead_nonzero lx :
  lookahead lx <> 0 -> exists r, unread lx = lookahead lx :: r.
Proof.
  unfold lookahead. destruct (unread lx) as [|c r]; simpl; [congruence|].
  eauto.
Qed.

(** What the helper has consumed, whatever it answers: code points that
    fold to the beginning of the pattern; all of the pattern when it
    answers [true], and strictly less, up to a code point that does not
    fold to the next character of the pattern, when it answers [false]. *)
Lemma lookahead_matches_string_spec str : forall lx,
  exists p,
    consumed lx (snd (lookahead_matches_string lx str)) p /\
    map fold_ascii p =
    map fold_ascii (firstn (List.length p) (until_nul str)) /\
    if fst (lookahead_matches_string lx str)
    then List.length p = List.length (until_nul str)
    else (List.length p < List.length (until_nul str))%nat /\
         fold_ascii (lookahead (snd (lookahead_matches_string lx str))) <>
         fold_ascii (nth (List.length p) (until_nul str) 0).
Proof.
  induction str as [|e str IH]; intros lx; simpl.
  - exists []. split; [apply consumed_refl|]. simpl. auto.
  - destruct (Z.eqb_spec e 0) as [E0|E0].
    + exists []. split; [apply consumed_refl|]. simpl. auto.
    + destruct (Z.eqb_spec (fold_ascii (lookahead lx)) (fold_ascii e))
        as [F|F].
      * assert (N : lookahead lx <> 0).
        { intros Z0. rewrite Z0 in F. symmetry in F.
          change (fold_ascii 0) with 0 in F.
          apply (proj1 (fold_ascii_zero e)) in F. contradiction. }
        destruct (lookahead_nonzero lx N) as (r & U).
        pose proof (consumed_one lx _ r U) as C1.
        destruct (IH (advance lx)) as (p & C & M & B).
        exists ([lookahead lx] ++ p).
        split; [eapply consumed_trans; eassumption|].
        simpl. split; [rewrite F, M; reflexivity|].
        destruct (fst (lookahead_matches_string (advance lx) str)).
        -- lia.
        -- destruct B as [B1 B2]. split; [lia | exact B2].
      * exists []. split; [apply consumed_refl|]. simpl.
        split; [reflexivity|]. split; [lia | exact F].
Qed.

Lemma advance_unread lx c r : unread lx = c :: r -> unread (advance lx) = r.
Proof. unfold advance. intros ->. reflexivity. Qed.

Lemma lookahead_matches_string_true str : forall lx,
  fst (lookahead_matches_string lx str) = true <->
  map fold_ascii (firstn (List.length (until_nul str)) (unread lx)) =
  map fold_ascii (until_nul str).
Proof.
  induction str as [|e str IH]; intros lx.
  - simpl. tauto.
  - cbn [lookahead_matches_string until_nul].
    destruct (Z.eqb_spec e 0) as [E0|E0]; [simpl; tauto|].
    cbn [List.length map]. unfold lookahead.
    destruct (unread lx) as [|c r] eqn:U; cbn [hd firstn map].
    + destruct (Z.eqb_spec (fold_ascii 0) (fold_ascii e)) as [F|F].
      * symmetry in F. change (fold_ascii 0) with 0 in F.
        apply (proj1 (fold_ascii_zero e)) in F. contradiction.
      * simpl. split; discriminate.
    + destruct (Z.eqb_spec (fold_ascii c) (fold_ascii e)) as [F|F].
      * rewrite IH, (advance_unread lx c r U), F.
        split; [congruence|]. intros H. injection H. auto.
      * simpl. split; [discriminate|]. intros H. injection H as H _.
        contradiction.
Qed.

(** X1: [lookahead_matches_string] answers [true] exactly when the next
    code points of the input, as many as the pattern has characters in front
    of its NUL, fold (ASCII letters only) to the folded pattern; it then
    has consumed exactly these code points and has touched neither the marks
    nor the token kind. *)
Theorem lookahead_matches_string_success lx str :
  (fst (lookahead_matches_string lx str) = true <->
   map fold_ascii (firstn (List.length (until_nul str)) (unread lx)) =
   map fold_ascii (until_nul str)) /\
  (fst (lookahead_matches_string lx str) = true ->
   consumed lx (snd (lookahead_matches_string lx str))
            (firstn (List.length (until_nul str)) (unread lx))).
Proof.
  split; [apply lookahead_matches_string_true|].
  intros H. destruct (lookahead_matches_string_spec str lx) as (p & C & _ & B).
  rewrite H in B. rewrite <- B.
  assert (E : firstn (List.length p) (unread lx) = p).
  { destruct C as (U & _). rewrite U.
    rewrite firstn_app, Nat.sub_diag, firstn_all. simpl.
    apply app_nil_r. }
  rewrite E. exact C.
Qed.

Lemma lookahead_matches_string_success_witness :
  consumed (lexer_at 0 (codes "STYLE>"))
           (snd (lookahead_matches_string (lexer_at 0 (codes "STYLE>"))
                   (codes "style")))
           (firstn (List.length (until_nul (codes "style")))
                   (unread (lexer_at 0 (codes "STYLE>")))).
Proof.
  apply (proj2 (lookahead_matches_string_success (lexer_at 0 (codes "STYLE>"))
                  (codes "style"))).
  reflexivity.
Defined.

(** X2: when [lookahead_matches_string] answers [false] it does not rewind:
    the lexer stays advanced over the code points that matched, strictly
    fewer than the pattern has, and stops at the first code point that does
    not fold to the next character of the pattern. *)
Theorem lookahead_matches_string_failure lx str :
  fst (lookahead_matches_string lx str) = false ->
  exists p,
    consumed lx (snd (lookahead_matches_string lx str)) p /\
    (List.length p < List.length (until_nul str))%nat /\
    map fold_ascii p =
    map fold_ascii (firstn (List.length p) (until_nul str)) /\
    fold_ascii (lookahead (snd (lookahead_matches_string lx str))) <>
    fold_ascii (nth (List.length p) (until_nul str) 0).
Proof.
  intros H. destruct (lookahead_matches_string_spec str lx) as (p & C & M & B).
  rewrite H in B. exists p. tauto.
Qed.

Lemma lookahead_matches_string_failure_witness :
  exists p,
    consumed (lexer_at 0 (codes "stYx"))
      (snd (lookahead_matches_string (lexer_at 0 (codes "stYx"))
              (codes "style"))) p /\
    (List.length p < List.length (until_nul (codes "style")))%nat /\
    map fold_ascii p =
    map fold_ascii (firstn (List.length p) (until_nul (codes "style"))) /\
    fold_ascii (lookahead
      (snd (lookahead_matches_string (lexer_at 0 (codes "stYx"))
              (codes "style")))) <>
    fold_ascii (nth (List.length p) (until_nul (codes "style")) 0).
Proof.
  apply (lookahead_matches_string_failure (lexer_at 0 (codes "stYx"))
           (codes "style")).
  reflexivity.
Defined.

(** X3: the comparison folds the pattern as well as the input: two patterns
    with the same folding give the same answer and leave the same lexer. *)
Theorem lookahead_matches_string_pattern_case str1 : forall str2 lx,
  map fold_ascii str1 = map fold_ascii str2 ->
  lookahead_matches_string lx str1 = lookahead_matches_string lx str2.
Proof.
  induction str1 as [|e1 s1 IH]; intros [|e2 s2] lx H; simpl in H;
    try discriminate; [reflexivity|].
  injection H as He Hs. simpl.
  assert (Z0 : (e1 =? 0) = (e2 =? 0)).
  { destruct (Z.eqb_spec e1 0) as [E1|E1], (Z.eqb_spec e2 0) as [E2|E2];
      try reflexivity; exfalso.
    - apply E2. apply (proj1 (fold_ascii_zero e2)).
      rewrite <- He, E1. reflexivity.
    - apply E1. apply (proj1 (fold_ascii_zero e1)).
      rewrite He, E2. reflexivity. }
  rewrite Z0, He. clear Z0. destruct (e2 =? 0); [reflexivity|].
  destruct (fold_ascii (lookahead lx) =? fold_ascii e2);
    [apply IH; exact Hs | reflexivity].
Qed.

Lemma lookahead_matches_string_pattern_case_witness :
  lookahead_matches_string (lexer_at 0 (codes "script>")) (codes "SCRIPT") =
  lookahead_matches_string (lexer_at 0 (codes "script>")) (codes "script").
Proof.
  apply (lookahead_matches_string_pattern_case (codes "SCRIPT")
           (codes "script") (lexer_at 0 (codes "script>"))).
  reflexivity.
Defined.

(** ** The inline name tests and the helper *)

Lemma fold_eqb_lower c k :
  97 <= k <= 122 ->
  (fold_ascii c =? fold_ascii k) = ((c =? k) || (c =? k - 32)).
Proof.
  intros K. unfold fold_ascii. change (chr "a" - chr "A") with 32.
  change (chr "A") with 65. change (chr "Z") with 90.
  destruct (Z.leb_spec 65 k), (Z.leb_spec k 90); simpl; try lia.
  destruct (Z.leb_spec 65 c), (Z.leb_spec c 90); simpl;
    destruct (Z.eqb_spec c k), (Z.eqb_spec c (k - 32)); simpl; lia.
Qed.

Lemma either_as_fold a b k lx :
  chr a = k -> chr b = k - 32 -> 97 <= k <= 122 ->
  either a b lx = (fold_ascii (lookahead lx) =? fold_ascii k).
Proof.
  intros <- Hb K. unfold either. rewrite Hb. symmetry.
  apply fold_eqb_lower. exact K.
Qed.

Ltac helper_tests :=
  rewrite ?(either_as_fold "y" "Y" 121), ?(either_as_fold "l" "L" 108),
    ?(either_as_fold "e" "E" 101), ?(either_as_fold "r" "R" 114),
    ?(either_as_fold "i" "I" 105), ?(either_as_fold "p" "P" 112),
    ?(either_as_fold "t" "T" 116), ?(either_as_fold "c" "C" 99)
    by (reflexivity || lia).

(** X4: the nested tests [scan_raw_text] spells out for [style] and
    [script] are the helper in another form: entered with the lookahead on
    [t] or [T] (on [c] or [C]), they answer and leave the lexer exactly as
    [lookahead_matches_string] does on ["tyle"] (on ["cript"]), followed by
    the end-of-name test. *)
Theorem inline_tests_are_the_helper lx :
  (either "t" "T" lx = true ->
   style_tail lx = with_end (lookahead_matches_string lx (codes "tyle"))) /\
  (either "c" "C" lx = true ->
   script_tail lx = with_end (lookahead_matches_string lx (codes "cript"))).
Proof.
  split; intros H.
  - rewrite (either_as_fold "t" "T" 116) in H by (reflexivity || lia).
    unfold style_tail. change (codes "tyle") with [116; 121; 108; 101].
    cbn [lookahead_matches_string]. helper_tests.
    change (116 =? 0) with false. change (121 =? 0) with false.
    change (108 =? 0) with false. change (101 =? 0) with false.
    cbv iota. rewrite H.
    repeat match goal with
           | |- context [fold_ascii (lookahead ?l) =? fold_ascii ?k] =>
             destruct (fold_ascii (lookahead l) =? fold_ascii k)
           end; reflexivity.
  - rewrite (either_as_fold "c" "C" 99) in H by (reflexivity || lia).
    unfold script_tail. change (codes "cript") with [99; 114; 105; 112; 116].
    cbn [lookahead_matches_string]. helper_tests.
    change (99 =? 0) with false. change (114 =? 0) with false.
    change (105 =? 0) with false. change (112 =? 0) with false.
    change (116 =? 0) with false.
    cbv iota. rewrite H.
    repeat match goal with
           | |- context [fold_ascii (lookahead ?l) =? fold_ascii ?k] =>
             destruct (fold_ascii (lookahead l) =? fold_ascii k)
           end; reflexivity.
Qed.

Lemma inline_tests_are_the_helper_witness :
  style_tail (lexer_at 2 (codes "TyLe >")) =
  with_end (lookahead_matches_string (lexer_at 2 (codes "TyLe >"))
              (codes "tyle")) /\
  script_tail (lexer_at 2 (codes "crIx")) =
  with_end (lookahead_matches_string (lexer_at 2 (codes "crIx"))
              (codes "cript")).
Proof.
  split.
  - apply (proj1 (inline_tests_are_the_helper (lexer_at 2 (codes "TyLe >")))).
    reflexivity.
  - apply (proj2 (inline_tests_are_the_helper (lexer_at 2 (codes "crIx")))).
    reflexivity.
Defined.

(** ** The closing-tag test of [scan_raw_text] *)

Lemma advance_pos lx : (position (advance lx) <= S (position lx))%nat.
Proof. unfold advance. destruct (unread lx); simpl; lia. Qed.

Ltac advance_bounds :=
  repeat match goal with
         | |- context [advance ?l] =>
           lazymatch goal with
           | H : (position (advance l) <= S (position l))%nat |- _ => fail
           | _ => pose proof (advance_pos l)
           end
         end.

Lemma style_or_script_pos lx :
  (position (snd (style_or_script lx)) <= position lx + 5)%nat.
Proof.
  unfold style_or_script, style_tail, script_tail.
  repeat match goal with
         | |- context [either ?a ?b ?l] => destruct (either a b l)
         end; simpl; advance_bounds; lia.
Qed.

Lemma close_tag_name_pos lx :
  (position (snd (close_tag_name lx)) <= position lx + 8)%nat.
Proof.
  unfold close_tag_name.
  destruct (lookahead lx =? chr "S").
  - unfold sql_tail.
    destruct (lookahead (advance lx) =? chr "Q").
    + destruct (lookahead (advance (advance lx)) =? chr "L").
      * destruct (tag_name_end _); simpl.
        -- advance_bounds. lia.
        -- pose proof (style_or_script_pos (advance (advance (advance lx)))).
           advance_bounds. lia.
      * pose proof (style_or_script_pos (advance (advance lx))).
        advance_bounds. lia.
    + pose proof (style_or_script_pos (advance lx)). advance_bounds. lia.
  - destruct (lookahead lx =? chr "s").
    + pose proof (style_or_script_pos (advance lx)). advance_bounds. lia.
    + simpl. lia.
Qed.

Lemma accepted_name_length p : accepted_name p = true -> (List.length p <= 8)%nat.
Proof.
  intros A.
  pose proof (close_tag_name_accepts p (chr ">") [] 0 [] None A eq_refl) as E.
  pose proof (close_tag_name_pos (mkLexer (p ++ [chr ">"]) 0 [] None)) as B.
  rewrite E in B. simpl in B. lia.
Qed.

(** X5: the closing-tag test accepts exactly the inputs that begin with an
    accepted name followed by an end-of-name character: [style] or [script]
    in any mix of ASCII cases, [SQL], or [SQ]/[SQL] followed by [tyle] or
    [cript] in any mix of cases; then [>], space, tab, line feed or
    carriage return. *)
Theorem close_tag_name_language lx :
  fst (close_tag_name lx) = true <->
  exists p t r, unread lx = p ++ t :: r /\
    accepted_name p = true /\ terminator t = true.
Proof.
  split; [apply close_tag_name_true_inv|].
  intros (p & t & r & U & A & T).
  destruct lx as [u pos m s]. simpl in U. subst u.
  rewrite close_tag_name_accepts by assumption. reflexivity.
Qed.

(** X6: whatever it answers, the closing-tag test consumes ASCII letters
    only, at most eight of them, and touches neither the marks nor the
    token kind; so a failed test never swallows a [<], an [@] or an
    end-of-name character.  When it answers [true] what it consumed is the
    accepted name, and the lookahead is the end-of-name character. *)
Theorem close_tag_name_consumes_letters lx :
  exists p,
    consumed lx (snd (close_tag_name lx)) p /\
    forallb ascii_letter p = true /\
    (List.length p <= 8)%nat /\
    (fst (close_tag_name lx) = true ->
     accepted_name p = true /\
     terminator (lookahead (snd (close_tag_name lx))) = true).
Proof.
  destruct (close_tag_name_result lx) as (p & C & L & F).
  exists p. split; [exact C|]. split; [exact L|]. split.
  - pose proof (close_tag_name_pos lx) as B.
    destruct C as (_ & P & _). lia.
  - intros H. destruct (F H) as [T A]. split; [exact A|].
    rewrite tag_name_end_terminator in T. exact T.
Qed.

Lemma close_tag_name_consumes_letters_witness :
  exists p,
    consumed (lexer_at 2 (codes "SQLcript x"))
             (snd (close_tag_name (lexer_at 2 (codes "SQLcript x")))) p /\
    forallb ascii_letter p = true /\
    (List.length p <= 8)%nat /\
    accepted_name p = true /\
    terminator (lookahead
      (snd (close_tag_name (lexer_at 2 (codes "SQLcript x"))))) = true.
Proof.
  destruct (close_tag_name_consumes_letters (lexer_at 2 (codes "SQLcript x")))
    as (p & C & L & B & F).
  exists p. split; [exact C|]. split; [exact L|]. split; [exact B|].
  apply F. reflexivity.
Defined.

Lemma close_tag_name_language_witness :
  fst (close_tag_name (lexer_at 2 (codes "Script>"))) = true.
Proof.
  apply (proj2 (close_tag_name_language (lexer_at 2 (codes "Script>")))).
  exists (codes "Script"), (chr ">"), [].
  split; [reflexivity|]. split; reflexivity.
Defined.

(** ** What [scan_raw_text] returns, for every input *)

Lemma first_stop_accumulates input :
  accumulates (firstn (first_stop input) input)
              (skipn (first_stop input) input) = true.
Proof.
  induction input as [|c tl IH]; [reflexivity|].
  cbn [first_stop]. destruct (stop_at (c :: tl)) eqn:S; [reflexivity|].
  cbn [firstn skipn accumulates].
  change ((c :: firstn (first_stop tl) tl) ++ skipn (first_stop tl) tl)
    with (c :: (firstn (first_stop tl) tl ++ skipn (first_stop tl) tl)).
  rewrite firstn_skipn, IH.
  unfold stop_at in S. apply orb_false_iff in S. destruct S as [-> ->].
  reflexivity.
Qed.

Lemma first_stop_stops input :
  stop_at (skipn (first_stop input) input) = true.
Proof.
  induction input as [|c tl IH]; [reflexivity|].
  cbn [first_stop]. destruct (stop_at (c :: tl)) eqn:S; [exact S|].
  exact IH.
Qed.

Lemma first_stop_le input : (first_stop input <= List.length input)%nat.
Proof.
  induction input as [|c tl IH]; [simpl; lia|].
  cbn [first_stop List.length]. destruct (stop_at (c :: tl)); lia.
Qed.

Lemma first_stop_zero input : first_stop input = 0%nat <-> stop_at input = true.
Proof.
  destruct input as [|c tl]; [simpl; tauto|].
  cbn [first_stop]. destruct (stop_at (c :: tl)); split; auto; discriminate.
Qed.

Lemma trigger_excludes_close l : trigger_at l = true -> close_tag_at l = false.
Proof.
  destruct l as [|a [|b l]]; simpl; try discriminate.
  intros H. apply andb_true_iff in H. destruct H as [H _].
  apply Z.eqb_eq in H. subst a. reflexivity.
Qed.

(** The three cases of a scan inside a region, by the beginning of the
    input. *)
Lemma scan_cases sc v pos input :
  in_region v ->
  ((0 < first_stop input)%nat /\ input <> [] /\
   trigger_at input = false /\ close_tag_at input = false /\
   emits (scan sc (lexer_at pos input) v) RAW_TEXT (pos + first_stop input)) \/
  (first_stop input = 0%nat /\ trigger_at input = true /\
   close_tag_at input = false /\
   emits (scan sc (lexer_at pos input) v) RAW_TEXT_INTERPOLATION_START
         (pos + 2)) \/
  (first_stop input = 0%nat /\ trigger_at input = false /\
   (input = [] \/ close_tag_at input = true) /\
   declines (scan sc (lexer_at pos input) v)).
Proof.
  intros V. destruct (first_stop input) as [|k] eqn:K.
  - right. pose proof (proj1 (first_stop_zero input) K) as St.
    destruct input as [|a input].
    + right. repeat split; auto.
      eapply runs_declines; [exact V | apply stop_first_eof].
    + unfold stop_at in St. destruct (trigger_at (a :: input)) eqn:T.
      * left. repeat split; auto using trigger_excludes_close.
        destruct input as [|b input]; [discriminate|]. simpl in T.
        apply andb_true_iff in T. destruct T as [Ta Tb].
        apply Z.eqb_eq in Ta, Tb. subst a b.
        eapply runs_emits;
          [exact V | apply stop_first_trigger | reflexivity
          | unfold token_end; simpl; lia].
      * right.
        assert (C : close_tag_at (a :: input) = true).
        { apply orb_true_iff in St.
          destruct St as [St|St]; [congruence | exact St]. }
        repeat split; auto.
        apply close_tag_at_iff in C.
        destruct C as (p & t & r & E & A & T'). rewrite E.
        eapply runs_declines; [exact V|].
        apply (stop_first_close p t r); assumption.
  - left.
    assert (St : stop_at input = false).
    { destruct (stop_at input) eqn:S0; [|reflexivity].
      apply first_stop_zero in S0. congruence. }
    destruct input as [|a input]; [discriminate|].
    unfold stop_at in St. apply orb_false_iff in St. destruct St as [T C].
    split; [lia|]. split; [discriminate|]. split; [exact T|].
    split; [exact C|].
    pose proof (first_stop_accumulates (a :: input)) as A.
    pose proof (first_stop_stops (a :: input)) as Stp.
    rewrite K in A, Stp.
    destruct (content_then_stop (firstn (S k) (a :: input))
                (skipn (S k) (a :: input)) false pos [] None
                ltac:(discriminate) A Stp) as (lx' & R & Kd & E).
    rewrite firstn_skipn in R.
    apply (runs_emits sc _ v lx'); auto.
    rewrite E. rewrite length_firstn.
    pose proof (first_stop_le (a :: input)) as L. rewrite K in L. lia.
Qed.

(** X7: the complete input-output behaviour of a scan inside a region, from
    any starting position [pos].  The scan declines exactly when the input
    is empty or begins with an accepted closing tag; it returns
    [RAW_TEXT_INTERPOLATION_START] exactly when the input begins with the
    trigger, and the token then ends two code points on; it returns
    [RAW_TEXT] in every other case, and the token then ends at the first
    position that begins the trigger or an accepted closing tag, or at the
    end of the input when there is none. *)
Theorem scan_specification sc v pos input :
  in_region v ->
  (declines (scan sc (lexer_at pos input) v) <->
   input = [] \/ close_tag_at input = true) /\
  (forall e,
     emits (scan sc (lexer_at pos input) v) RAW_TEXT_INTERPOLATION_START e <->
     trigger_at input = true /\ e = (pos + 2)%nat) /\
  (forall e,
     emits (scan sc (lexer_at pos input) v) RAW_TEXT e <->
     (0 < first_stop input)%nat /\ e = (pos + first_stop input)%nat).
Proof.
  intros V.
  destruct (scan_cases sc v pos input V)
    as [(K & Ne & T & C & E) | [(K & T & C & E) | (K & T & D & E)]].
  - split; [|split].
    + split; [intros D; destruct (emits_declines_excl _ _ _ E D)|].
      intros [H|H]; congruence.
    + intros e. split.
      * intros E'. destruct (emits_fun _ _ _ _ _ E E'). discriminate.
      * intros [H _]. congruence.
    + intros e. split.
      * intros E'. destruct (emits_fun _ _ _ _ _ E E'). auto.
      * intros [_ ->]. exact E.
  - split; [|split].
    + split; [intros D; destruct (emits_declines_excl _ _ _ E D)|].
      intros [H|H]; [subst input; discriminate | congruence].
    + intros e. split.
      * intros E'. destruct (emits_fun _ _ _ _ _ E E'). auto.
      * intros [_ ->]. exact E.
    + intros e. split.
      * intros E'. destruct (emits_fun _ _ _ _ _ E E'). discriminate.
      * intros [H _]. lia.
  - split; [|split].
    + split; auto.
    + intros e. split.
      * intros E'. destruct (emits_declines_excl _ _ _ E' E).
      * intros [H _]. congruence.
    + intros e. split.
      * intros E'. destruct (emits_declines_excl _ _ _ E' E).
      * intros [H _]. lia.
Qed.

Lemma scan_specification_witness :
  declines (scan create (lexer_at 5 (codes "</Script >")) all_valid) /\
  emits (scan create (lexer_at 5 (codes "@{x}")) all_valid)
        RAW_TEXT_INTERPOLATION_START (5 + 2) /\
  emits (scan create (lexer_at 5 (codes "a<b</s@{x}")) all_valid)
        RAW_TEXT (5 + first_stop (codes "a<b</s@{x}")).
Proof.
  split; [|split].
  - apply (proj1 (scan_specification create all_valid 5
                    (codes "</Script >") eq_refl)).
    right. reflexivity.
  - apply (proj1 (proj2 (scan_specification create all_valid 5
                           (codes "@{x}") eq_refl))).
    split; reflexivity.
  - apply (proj2 (proj2 (scan_specification create all_valid 5
                           (codes "a<b</s@{x}") eq_refl))).
    split; [vm_compute; lia | reflexivity].
Defined.

(** X8: a [RAW_TEXT] token is maximal.  When the host resumes at the end of
    a [RAW_TEXT] token, the next scan never returns [RAW_TEXT] again: it
    declines or returns [RAW_TEXT_INTERPOLATION_START]. *)
Theorem raw_text_is_maximal sc v pos input e :
  in_region v ->
  emits (scan sc (lexer_at pos input) v) RAW_TEXT e ->
  declines (scan sc (lexer_at e (skipn (e - pos) input)) v) \/
  emits (scan sc (lexer_at e (skipn (e - pos) input)) v)
        RAW_TEXT_INTERPOLATION_START (e + 2).
Proof.
  intros V E.
  assert (Ee : e = (pos + first_stop input)%nat).
  { destruct (scan_cases sc v pos input V)
      as [(_ & _ & _ & _ & E1) | [(_ & _ & _ & E1) | (_ & _ & _ & D)]].
    - destruct (emits_fun _ _ _ _ _ E E1). auto.
    - destruct (emits_fun _ _ _ _ _ E E1). discriminate.
    - destruct (emits_declines_excl _ _ _ E D). }
  replace (e - pos)%nat with (first_stop input) by lia.
  pose proof (proj2 (first_stop_zero _) (first_stop_stops input)) as Z0.
  destruct (scan_cases sc v e (skipn (first_stop input) input) V)
    as [(K & _) | [(_ & _ & _ & E1) | (_ & _ & _ & D)]]; auto.
  lia.
Qed.

Lemma raw_text_is_maximal_witness :
  declines (scan create
              (lexer_at 8 (skipn (8 - 0) (codes "a</div>b</style>")))
              all_valid) \/
  emits (scan create
           (lexer_at 8 (skipn (8 - 0) (codes "a</div>b</style>")))
           all_valid)
        RAW_TEXT_INTERPOLATION_START (8 + 2).
Proof.
  apply (raw_text_is_maximal create all_valid 0 (codes "a</div>b</style>") 8).
  - reflexivity.
  - exists (mkOutcome true create
              (mkLexer [chr ">"] 15 [8; 8; 7; 6; 5; 4; 3; 1; 1]%nat
                       (Some RAW_TEXT))).
    split; [reflexivity|]. split; [reflexivity|]. split; reflexivity.
Defined.

(** X9: [scan_raw_text] never looks at which of its two kinds the grammar
    declared valid: with [RAW_TEXT] invalid and only the interpolation start
    valid it still returns [RAW_TEXT] over content, and with only [RAW_TEXT]
    valid it still returns the interpolation start at the trigger. *)
Theorem valid_kind_is_not_checked sc pos input v :
  (v RAW_TEXT = false -> v RAW_TEXT_INTERPOLATION_START = true ->
   (0 < first_stop input)%nat ->
   emits (scan sc (lexer_at pos input) v) RAW_TEXT (pos + first_stop input)) /\
  (v RAW_TEXT = true -> v RAW_TEXT_INTERPOLATION_START = false ->
   trigger_at input = true ->
   emits (scan sc (lexer_at pos input) v) RAW_TEXT_INTERPOLATION_START
         (pos + 2)).
Proof.
  split; intros V1 V2 H.
  - assert (V : in_region v) by (unfold in_region; rewrite V1, V2; reflexivity).
    destruct (scan_cases sc v pos input V)
      as [(_ & _ & _ & _ & E) | [(K & _) | (K & _)]]; [exact E | lia | lia].
  - assert (V : in_region v) by (unfold in_region; rewrite V1, V2; reflexivity).
    destruct (scan_cases sc v pos input V)
      as [(_ & _ & T & _) | [(_ & _ & _ & E) | (_ & T & _)]];
      [congruence | exact E | congruence].
Qed.

Lemma valid_kind_is_not_checked_witness :
  emits (scan create (lexer_at 0 (codes "body {}"))
              (fun k => match k with
                        | RAW_TEXT_INTERPOLATION_START => true
                        | _ => false
                        end))
        RAW_TEXT (0 + first_stop (codes "body {}")) /\
  emits (scan create (lexer_at 0 (codes "@{x}"))
              (fun k => match k with RAW_TEXT => true | _ => false end))
        RAW_TEXT_INTERPOLATION_START (0 + 2).
Proof.
  split.
  - apply (proj1 (valid_kind_is_not_checked create 0 (codes "body {}") _)).
    + reflexivity.
    + reflexivity.
    + vm_compute. lia.
  - apply (proj2 (valid_kind_is_not_checked create 0 (codes "@{x}") _)).
    + reflexivity.
    + reflexivity.
    + reflexivity.
Defined.

(** ** Where a scan leaves the cursor *)

Lemma body_return_cursor hc lx b lx' :
  loop_body hc lx = Return (b, lx') ->
  exists p,
    unread lx = p ++ unread lx' /\
    position lx' = (position lx + List.length p)%nat /\
    (List.length p <= 10)%nat /\
    ((p = [] /\ marks lx' = marks lx /\ b = hc) \/
     marks lx' = position lx :: marks lx \/
     marks lx' = position lx' :: position lx :: marks lx).
Proof.
  intros E. pose proof (loop_body_pass hc lx) as P. rewrite E in P.
  destruct hc; inversion P as [| |p t r pos m s A T|]; subst; simpl.
  - exists []. repeat split; simpl; auto; lia.
  - exists [chr "@"]. repeat split; simpl; auto; lia.
  - exists (chr "<" :: chr "/" :: p).
    pose proof (accepted_name_length p A).
    repeat split; simpl; auto; lia.
  - exists []. repeat split; simpl; auto; lia.
  - exists [chr "@"; chr "{"]. repeat split; simpl; auto; lia.
  - exists (chr "<" :: chr "/" :: p).
    pose proof (accepted_name_length p A).
    repeat split; simpl; auto; lia.
Qed.

Lemma body_continue_cursor hc lx lx1 :
  loop_body hc lx = Continue lx1 ->
  exists p, unread lx = p ++ unread lx1 /\
            position lx1 = (position lx + List.length p)%nat.
Proof.
  intros E. pose proof (loop_body_pass hc lx) as P. rewrite E in P.
  inversion P as [| | |p r pos m ms s Hp Hms]; subst. simpl.
  exists p. split; [reflexivity | lia].
Qed.

Lemma scan_loop_cursor budget : forall hc lx b lx',
  scan_loop budget hc lx = Some (b, lx') ->
  (hc = true -> token_end lx = position lx /\ marks lx <> []) ->
  (exists p, unread lx = p ++ unread lx' /\
             position lx' = (position lx + List.length p)%nat) /\
  (b = true ->
   (token_end lx' <= position lx')%nat /\
   (position lx' <= token_end lx' + 10)%nat) /\
  (b = false -> (position lx' <= position lx + 10)%nat).
Proof.
  induction budget as [|n IH]; intros hc lx b lx' H I; [discriminate|].
  simpl in H. destruct (loop_body hc lx) as [r|lx1] eqn:B.
  - injection H as ->.
    destruct (body_return_cursor _ _ _ _ B) as (p & U & P & L & M).
    split; [eauto|]. split; [|lia].
    intros ->. unfold token_end.
    destruct M as [(-> & M & Hc) | [M | M]]; rewrite M.
    + destruct (I (eq_sym Hc)) as [T Ne]. unfold token_end in T.
      destruct (marks lx); [congruence|]. simpl in P. lia.
    + lia.
    + lia.
  - destruct (body_continue_cursor _ _ _ B) as (p & U & P).
    destruct (body_continue_marked _ _ _ B) as (_ & (ms & Ms) & _).
    assert (I1 : true = true -> token_end lx1 = position lx1 /\ marks lx1 <> []).
    { intros _. unfold token_end. rewrite Ms. split; [reflexivity|].
      discriminate. }
    destruct (IH true lx1 b lx' H I1) as ((q & Uq & Pq) & Bt & _).
    split; [|split].
    + exists (p ++ q). rewrite U, Uq, app_assoc, length_app.
      split; [reflexivity | lia].
    + exact Bt.
    + intros ->.
      destruct (scan_loop_content n lx1 false lx' H) as (D & _);
        [apply I1; reflexivity | apply I1; reflexivity | discriminate].
Qed.

(** The cursor after any scan call. *)
Lemma scan_cursor sc lx v o :
  scan sc lx v = Some o ->
  (exists p, unread lx = p ++ unread (lexer o) /\
             position (lexer o) = (position lx + List.length p)%nat) /\
  (handled o = true ->
   (token_end (lexer o) <= position (lexer o))%nat /\
   (position (lexer o) <= token_end (lexer o) + 10)%nat) /\
  (handled o = false -> (position (lexer o) <= position lx + 10)%nat).
Proof.
  unfold scan. destruct (_ || _).
  - unfold scan_raw_text.
    destruct (scan_loop _ false lx) as [[b lx']|] eqn:R; [|discriminate].
    intros H. injection H as <-. simpl.
    apply (scan_loop_cursor _ false lx b lx' R). discriminate.
  - intros H. injection H as <-. simpl.
    split; [exists []; split; [reflexivity | simpl; lia]|].
    split; [discriminate | lia].
Qed.

(** X10: a scan only moves forward over the input: what is left unread is a
    suffix of what was unread, and the position has grown by the number of
    code points consumed.  The end of a returned token lies after the start
    and within the input, at or before the cursor. *)
Theorem token_lies_within_input sc lx v o :
  scan sc lx v = Some o ->
  (exists p, unread lx = p ++ unread (lexer o) /\
             position (lexer o) = (position lx + List.length p)%nat) /\
  (handled o = true ->
   (position lx < token_end (lexer o))%nat /\
   (token_end (lexer o) <= position (lexer o))%nat /\
   (token_end (lexer o) <= position lx + List.length (unread lx))%nat).
Proof.
  intros H. destruct (scan_cursor sc lx v o H) as ((p & U & P) & Bt & _).
  split; [eauto|]. intros Hh. destruct (Bt Hh) as [B1 _].
  destruct (decline_or_token sc lx v) as (o' & E' & _ & K).
  assert (o' = o) by congruence. subst o'. rewrite Hh in K.
  destruct K as (_ & _ & Lt).
  rewrite U, length_app. lia.
Qed.

Lemma token_lies_within_input_witness :
  (position (lexer_at 3 (codes "ab</SQL>")) <
   token_end (mkLexer [chr ">"] 10 [5; 5; 4]%nat (Some RAW_TEXT)))%nat /\
  (token_end (mkLexer [chr ">"] 10 [5; 5; 4]%nat (Some RAW_TEXT)) <=
   position (mkLexer [chr ">"] 10 [5; 5; 4]%nat (Some RAW_TEXT)))%nat /\
  (token_end (mkLexer [chr ">"] 10 [5; 5; 4]%nat (Some RAW_TEXT)) <=
   position (lexer_at 3 (codes "ab</SQL>")) +
   List.length (unread (lexer_at 3 (codes "ab</SQL>"))))%nat.
Proof.
  apply (proj2 (token_lies_within_input create (lexer_at 3 (codes "ab</SQL>"))
                  all_valid
                  (mkOutcome true create
                     (mkLexer [chr ">"] 10 [5; 5; 4]%nat (Some RAW_TEXT)))
                  eq_refl)).
  reflexivity.
Defined.

(** X11: the lookahead of a scan is bounded.  When a token is returned the
    cursor is at most ten code points past the end of the token, and when
    the scan declines it is at most ten code points past the start: the
    two of ["</"] and the eight letters of the longest accepted name. *)
Theorem lookahead_is_bounded sc lx v o :
  scan sc lx v = Some o ->
  (position (lexer o) <=
   (if handled o then token_end (lexer o) else position lx) + 10)%nat.
Proof.
  intros H. destruct (scan_cursor sc lx v o H) as (_ & Bt & Bf).
  destruct (handled o); [apply Bt | apply Bf]; reflexivity.
Qed.

Lemma lookahead_is_bounded_witness :
  (position (mkLexer [chr ">"] 11 [1; 1]%nat (Some RAW_TEXT)) <=
   token_end (mkLexer [chr ">"] 11 [1; 1]%nat (Some RAW_TEXT)) + 10)%nat.
Proof.
  apply (lookahead_is_bounded create (lexer_at 0 (codes "a</SQLcript>"))
           all_valid
           (mkOutcome true create
              (mkLexer [chr ">"] 11 [1; 1]%nat (Some RAW_TEXT)))).
  reflexivity.
Defined.

(** X12: what a decline leaves in the lexer.  Either nothing was touched
    (the grammar accepts neither kind, or the input is empty), or the input
    begins with an accepted closing tag and the cursor is left behind the
    name, in front of the end-of-name character, with the start as the only
    new mark and the token kind as it was: the scan does not rewind. *)
Theorem decline_leaves_cursor_after_name sc lx v o :
  scan sc lx v = Some o -> handled o = false ->
  lexer o = lx \/
  exists p t r,
    unread lx = chr "<" :: chr "/" :: p ++ t :: r /\
    accepted_name p = true /\ terminator t = true /\
    lexer o = mkLexer (t :: r) (List.length p + S (S (position lx)))
                      (position lx :: marks lx) (result_symbol lx).
Proof.
  intros H D.
  destruct (v RAW_TEXT || v RAW_TEXT_INTERPOLATION_START) eqn:V.
  - apply (scan_some_runs sc lx v o V) in H. rewrite D in H.
    destruct (loop_body false lx) as [r|lx1] eqn:B.
    + destruct H as [n R]. destruct n as [|n]; [discriminate|].
      simpl in R. rewrite B in R. injection R as ->.
      pose proof (loop_body_pass false lx) as P. rewrite B in P.
      inversion P as [| |p t r pos m s A T|]; subst.
      * left. reflexivity.
      * right. exists p, t, r. simpl. auto.
    + destruct (runs_continue_inv _ _ _ _ _ H B) as (X & _). discriminate.
  - unfold scan in H. rewrite V in H. injection H as <-. left. reflexivity.
Qed.

Lemma decline_leaves_cursor_after_name_witness :
  lexer (mkOutcome false create (mkLexer [chr ">"] 9 [4%nat] None)) =
  lexer_at 4 (codes "</SQL>") \/
  exists p t r,
    unread (lexer_at 4 (codes "</SQL>")) = chr "<" :: chr "/" :: p ++ t :: r /\
    accepted_name p = true /\ terminator t = true /\
    lexer (mkOutcome false create (mkLexer [chr ">"] 9 [4%nat] None)) =
    mkLexer (t :: r) (List.length p + S (S (position (lexer_at 4 (codes "</SQL>")))))
            (position (lexer_at 4 (codes "</SQL>")) ::
             marks (lexer_at 4 (codes "</SQL>")))
            (result_symbol (lexer_at 4 (codes "</SQL>"))).
Proof.
  apply (decline_leaves_cursor_after_name create (lexer_at 4 (codes "</SQL>"))
           all_valid (mkOutcome false create (mkLexer [chr ">"] 9 [4%nat] None))).
  - reflexivity.
  - reflexivity.
Defined.

(** ** Saving a restored state *)

Lemma to_char_to_uint8 b : -128 <= b < 128 -> to_char (to_uint8 b) = b.
Proof.
  intros H. unfold to_char, to_uint8.
  destruct (Z_lt_le_dec b 0) as [N|N].
  - replace (b mod 256) with (b + 256)
      by (apply Z.mod_unique with (q := -1); lia).
    replace ((b + 256 + 128) mod 256) with (b + 128)
      by (apply Z.mod_unique with (q := 1); lia).
    lia.
  - rewrite (Z.mod_small b 256) by lia.
    rewrite (Z.mod_small (b + 128) 256) by lia. lia.
Qed.

(** X13: saving a state that was restored from a buffer writes back the char
    it was restored from, whatever its sign, reports one char written, and
    leaves every other char of the output buffer as it was. *)
Theorem serialize_after_deserialize s0 b tl len b0 tl0 :
  -128 <= b < 128 -> (1 <= len)%nat ->
  tree_sitter_parsley_external_scanner_serialize
    (tree_sitter_parsley_external_scanner_deserialize s0 (b :: tl) len)
    (b0 :: tl0) =
  (1%nat, b :: tl0).
Proof.
  intros Hb Hl. unfold serialize, deserialize.
  destruct (Nat.leb_spec 1 len) as [_|L]; [|lia].
  simpl. rewrite to_char_to_uint8 by exact Hb. reflexivity.
Qed.

Lemma serialize_after_deserialize_witness :
  serialize (deserialize create ((-1) :: [7]) 2) (0 :: [5; 6]) =
  (1%nat, (-1) :: [5; 6]).
Proof.
  apply (serialize_after_deserialize create (-1) [7] 2 0 [5; 6]).
  - lia.
  - lia.
Defined.

